(** * Methods-Bible: the batch completion engine and the LaTeX region tools

    A shallow embedding of
      - [src/init_methods_book.py]: [extract_output_text_from_response_obj],
        [slugify], [extract_block], [parse_round_results],
        [run_example_batch];
      - [methods-book/tools/latex_scan_regions.py]: [parse_errors],
        [guess_file], [collect_regions];
      - [methods-book/tools/latex_fix_and_patch.py]: the line splice of
        [make_patch_for_region];
    followed by the properties of these functions.

    Modelling conventions.
      - A Python [str] is a [list ascii]; a character is a code point below
        256, so [str.isspace], [str.splitlines], [\d] and [\s] are the
        restrictions of the Python ones to that range.
      - A value returned by [json.loads] is a [json]; its numbers are the
        integers (no float literals).
      - A Python exception is an explicit outcome; the dictionaries that
        [parse_round_results] mutates are threaded as a [store], and an
        exception leaves the store as it was when it was raised.
      - The file system and the HTTP client are arguments: what is on disk,
        and what the client answers, call after call. *)

From Stdlib Require Import ZArith Ascii String List DecimalString Lia.
From stdpp Require Import gmap strings list.
Import ListNotations.

Set Warnings "-register-all".

Open Scope Z_scope.
Open Scope list_scope.

(* ===================================================================== *)
(** * Part I: definitions *)
(* ===================================================================== *)

(** ** Python strings *)

Module Py.

Abbreviation str := (list ascii).

(** A string literal of the source. *)
Definition lit (s : string) : str := list_ascii_of_string s.

Definition code (c : ascii) : N := N_of_ascii c.

(** [c.isspace()]: the white space of [str.strip()] and of the regular
    expression class [\s], on code points below 256. *)
Definition isspace (c : ascii) : bool :=
  let n := code c in
  (((9 <=? n) && (n <=? 13)) || ((28 <=? n) && (n <=? 32))
   || (n =? 133) || (n =? 160))%N.

(** The class [\d] (decimal digits) on code points below 256. *)
Definition isdigit (c : ascii) : bool :=
  let n := code c in ((48 <=? n) && (n <=? 57))%N.

Fixpoint drop_while {A} (p : A -> bool) (l : list A) : list A :=
  match l with
  | [] => []
  | x :: l' => if p x then drop_while p l' else l
  end.

Fixpoint take_while {A} (p : A -> bool) (l : list A) : list A :=
  match l with
  | [] => []
  | x :: l' => if p x then x :: take_while p l' else []
  end.

(** [s.strip(chars)] for the set of characters recognised by [p]. *)
Definition strip_with (p : ascii -> bool) (s : str) : str :=
  rev (drop_while p (rev (drop_while p s))).

(** [s.strip()] *)
Definition strip (s : str) : str := strip_with isspace s.

(** [s.startswith(p)] *)
Fixpoint startswith (p s : str) : bool :=
  match p, s with
  | [], _ => true
  | _ :: _, [] => false
  | a :: p', b :: s' => if decide (a = b) then startswith p' s' else false
  end.

(** The lowest index at which [sub] occurs in [s] ([s.find(sub)], with
    [None] for -1). *)
Fixpoint find (sub s : str) : option nat :=
  if startswith sub s then Some 0%nat
  else match s with
       | [] => None
       | _ :: s' => match find sub s' with
                    | Some k => Some (S k)
                    | None => None
                    end
       end.

(** [s.index(sub, start)], for [start <= len(s)]; [None] is [ValueError]. *)
Definition index (s sub : str) (start : nat) : option nat :=
  match find sub (drop start s) with
  | Some k => Some (start + k)%nat
  | None => None
  end.

(** [sub in s] *)
Definition contains (sub s : str) : bool :=
  match find sub s with Some _ => true | None => false end.

(** [sub] occurs in [s]. *)
Definition occurs (sub s : str) : Prop := exists a b, s = a ++ sub ++ b.

(** [sub] occurs in [s] at index [k]. *)
Definition occurs_at (sub s : str) (k : nat) : Prop :=
  exists b, drop k s = sub ++ b /\ (k <= length s)%nat.

(** The first occurrence of [sub] in [s] is at index [k]. *)
Definition first_at (sub s : str) (k : nat) : Prop :=
  occurs_at sub s k /\ forall j, (j < k)%nat -> ~ occurs_at sub s j.

(** The highest index at which [sub] occurs in [s]. *)
Fixpoint rfind (sub s : str) : option nat :=
  match s with
  | [] => if startswith sub [] then Some 0%nat else None
  | _ :: s' => match rfind sub s' with
               | Some k => Some (S k)
               | None => if startswith sub s then Some 0%nat else None
               end
  end.

(** [sep.join(l)] *)
Fixpoint join (sep : str) (l : list str) : str :=
  match l with
  | [] => []
  | [x] => x
  | x :: l' => x ++ sep ++ join sep l'
  end.

(** The line boundaries of [str.splitlines()] other than the pair CR LF:
    LF, VT, FF, CR, FS, GS, RS and NEL. *)
Definition is_linebreak (c : ascii) : bool :=
  let n := code c in
  (((10 <=? n) && (n <=? 13)) || ((28 <=? n) && (n <=? 30)) || (n =? 133))%N.

Definition CR : ascii := ascii_of_N 13.
Definition LF : ascii := ascii_of_N 10.

(** [splitlines_go cur s]: [cur] is the line being read. *)
Fixpoint splitlines_go (cur : str) (s : str) : list str :=
  match s with
  | [] => match cur with [] => [] | _ => [cur] end
  | c :: s' =>
      if is_linebreak c then
        match s' with
        | c' :: s'' =>
            if decide (c = CR) then
              if decide (c' = LF) then cur :: splitlines_go [] s''
              else cur :: splitlines_go [] s'
            else cur :: splitlines_go [] s'
        | [] => [cur]
        end
      else splitlines_go (cur ++ [c]) s'
  end.

(** [s.splitlines()] *)
Definition splitlines (s : str) : list str := splitlines_go [] s.

(** [str(n)] for a natural number. *)
Definition str_of_nat (n : nat) : str :=
  lit (NilEmpty.string_of_uint (Nat.to_uint n)).

(** [int(s)] for a string of decimal digits (Python refuses a string of
    more than 4300 digits; such numbers are outside the model). *)
Definition int_of_digits (s : str) : Z :=
  fold_left (fun acc c => 10 * acc + (Z.of_N (code c) - 48)) s 0.

(** The slice bounds of [l[i:j]] for a list of length [n]: a negative bound
    counts from the end, and both are clamped to [0, n]. *)
Definition clamp (n : nat) (i : Z) : nat :=
  if i <? 0 then Z.to_nat (Z.max 0 (Z.of_nat n + i))
  else Nat.min n (Z.to_nat i).

(** [l[i:j]] *)
Definition slice {A} (l : list A) (i j : Z) : list A :=
  let i' := clamp (length l) i in
  let j' := clamp (length l) j in
  take (j' - i') (drop i' l).

(** [l[i:j] = b] on a copy of [l] *)
Definition slice_assign {A} (l : list A) (i j : Z) (b : list A) : list A :=
  let i' := clamp (length l) i in
  let j' := Nat.max i' (clamp (length l) j) in
  take i' l ++ b ++ drop j' l.

(** [l] does not start with an element of the class [p]. *)
Definition head_ok {A} (p : A -> bool) (l : list A) : Prop :=
  match l with [] => True | x :: _ => p x = false end.

(** A string that [strip_with p] leaves as it is. *)
Definition clean (p : ascii -> bool) (s : str) : Prop :=
  head_ok p s /\ head_ok p (rev s).

End Py.

(** ** Exceptions and JSON values *)

Module Json.
Import Py.

Inductive exn : Type :=
| AttributeError | TypeError | KeyError | JSONDecodeError.

(** The outcome of a computation that may raise. *)
Inductive result (A : Type) : Type :=
| Ok (a : A)
| Raise (e : exn).
Arguments Ok {A} a.
Arguments Raise {A} e.

#[export] Instance result_ret : MRet result := fun A a => Ok a.
#[export] Instance result_bind : MBind result := fun A B f r =>
  match r with Ok a => f a | Raise e => Raise e end.

(** What [json.loads] returns: [None], a [bool], an [int], a [str], a
    [list] or a [dict].  The fields of an object are kept in the order of
    the text; as in [json.loads], the last binding of a repeated key is the
    one the dictionary holds. *)
Inductive json : Type :=
| JNull
| JBool (b : bool)
| JNum (n : Z)
| JStr (s : str)
| JArr (items : list json)
| JObj (fields : list (str * json)).

(** [bool(v)] *)
Definition truthy (v : json) : bool :=
  match v with
  | JNull => false
  | JBool b => b
  | JNum n => negb (n =? 0)
  | JStr s => match s with [] => false | _ => true end
  | JArr l => match l with [] => false | _ => true end
  | JObj f => match f with [] => false | _ => true end
  end.

(** The value a dictionary built from [fields] holds for [k]. *)
Fixpoint dict_get (fields : list (str * json)) (k : str) : option json :=
  match fields with
  | [] => None
  | (k', v) :: rest =>
      match dict_get rest k with
      | Some w => Some w
      | None => if decide (k' = k) then Some v else None
      end
  end.

(** [v.get(k, dflt)]: an [AttributeError] unless [v] is a [dict]. *)
Definition get (v : json) (k : string) (dflt : json) : result json :=
  match v with
  | JObj f => Ok (default dflt (dict_get f (lit k)))
  | _ => Raise AttributeError
  end.

(** [a or b] *)
Definition or_else (a b : json) : json := if truthy a then a else b.

(** [v == s] for a string literal [s]. *)
Definition is_str (v : json) (s : string) : bool :=
  match v with JStr t => bool_decide (t = lit s) | _ => false end.

(** The keys of the dictionaries of the run: a [str], or an [int] (a
    [bool] is the integer it equals), or [None]. *)
Inductive pykey : Type :=
| KNone
| KInt (n : Z)
| KStr (s : str).

#[export] Instance pykey_eq_dec : EqDecision pykey.
Proof. solve_decision. Defined.

#[export] Instance pykey_countable : Countable pykey :=
  inj_countable'
    (fun k => match k with
              | KNone => inl ()
              | KInt n => inr (inl n)
              | KStr s => inr (inr s)
              end)
    (fun x => match x with
              | inl _ => KNone
              | inr (inl n) => KInt n
              | inr (inr s) => KStr s
              end)
    (fun k => match k with KNone | KInt _ | KStr _ => eq_refl end).

(** [hash(v)]: lists and dictionaries are unhashable. *)
Definition as_key (v : json) : result pykey :=
  match v with
  | JNull => Ok KNone
  | JBool b => Ok (KInt (if b then 1 else 0))
  | JNum n => Ok (KInt n)
  | JStr s => Ok (KStr s)
  | JArr _ | JObj _ => Raise TypeError
  end.

End Json.

(** ** The batch completion engine ([src/init_methods_book.py]) *)

Module Batch.
Import Py Json.

(** The newline of ["\n".join(...)] and of [prev + "\n" + segment]. *)
Definition NL : str := [LF].

Definition INQUIRY_START : str := lit "%%% INQUIRY START %%%".
Definition INQUIRY_END : str := lit "%%% INQUIRY END %%%".
Definition SOLUTION_START : str := lit "%%% SOLUTION START %%%".
Definition SOLUTION_END : str := lit "%%% SOLUTION END %%%".

(** A [for] loop whose body may raise. *)
Fixpoint for_each {A B} (f : B -> A -> result A) (l : list B) (a : A)
  : result A :=
  match l with
  | [] => Ok a
  | x :: l' => a' ← f x a; for_each f l' a'
  end.

(** *** [extract_output_text_from_response_obj] *)

(** The [val] of one [output_text] item. *)
Definition text_value (item : json) : result json :=
  text_field ← get item "text" JNull;
  match text_field with
  | JObj _ =>
      value ← get text_field "value" JNull;
      content ← get text_field "content" JNull;
      Ok (or_else (or_else value content) (JStr []))
  | JStr _ => Ok text_field
  | _ => Ok (JStr [])
  end.

(** The body of the loop [for item in content]. *)
Definition item_chunks (item : json) (chunks : list json)
  : result (list json) :=
  ty ← get item "type" JNull;
  if is_str ty "output_text" then
    val ← text_value item;
    Ok (if truthy val then chunks ++ [val] else chunks)
  else Ok chunks.

(** The body of the loop [for msg in output_list]. *)
Definition msg_chunks (msg : json) (chunks : list json)
  : result (list json) :=
  content ← get msg "content" (JArr []);
  match content with
  | JArr items => for_each item_chunks items chunks
  | _ => Ok chunks
  end.

(** The arguments of ["\n".join(chunks)]: a [TypeError] unless each is a
    [str]. *)
Fixpoint chunk_texts (chunks : list json) : result (list str) :=
  match chunks with
  | [] => Ok []
  | JStr s :: rest => texts ← chunk_texts rest; Ok (s :: texts)
  | _ :: _ => Raise TypeError
  end.

Definition extract_output_text_from_response_obj (body : json)
  : result str :=
  output_list ← get body "output" (JArr []);
  match output_list with
  | JArr msgs =>
      chunks ← for_each msg_chunks msgs [];
      texts ← chunk_texts chunks;
      Ok (strip (join NL texts))
  | _ => Ok []
  end.

(** *** [slugify] *)

(** [c.lower()] on code points below 256. *)
Definition lower (c : ascii) : ascii :=
  let n := code c in
  if (((65 <=? n) && (n <=? 90))
      || ((192 <=? n) && (n <=? 222) && negb (n =? 215)))%N
  then ascii_of_N (n + 32) else c.

Definition is_lower_alnum (c : ascii) : bool :=
  let n := code c in
  (((97 <=? n) && (n <=? 122)) || ((48 <=? n) && (n <=? 57)))%N.

Definition HYPHEN : ascii := ascii_of_N 45.

Definition is_hyphen (c : ascii) : bool := bool_decide (c = HYPHEN).

(** [re.sub(cls+, "-", s)] for the character class recognised by [p];
    [in_run] tells that the run being read has been replaced already. *)
Fixpoint sub_runs (p : ascii -> bool) (in_run : bool) (s : str) : str :=
  match s with
  | [] => []
  | c :: s' =>
      if p c then
        if in_run then sub_runs p true s' else HYPHEN :: sub_runs p true s'
      else c :: sub_runs p false s'
  end.

Definition slugify (text : str) : str :=
  let s := map lower text in
  let s := sub_runs (fun c => negb (is_lower_alnum c)) false s in
  let s := sub_runs is_hyphen false s in
  match strip_with is_hyphen s with
  | [] => lit "section"
  | s' => s'
  end.

(** *** [extract_block] *)

Definition extract_block (full_text start_marker end_marker : str) : str :=
  match index full_text start_marker 0 with
  | None => []
  | Some i0 =>
      let i := (i0 + length start_marker)%nat in
      match index full_text end_marker i with
      | None => []
      | Some j => strip (take (j - i) (drop i full_text))
      end
  end.

(** *** [parse_round_results] *)

(** The value stored in [example_state_by_id]. *)
Record example_state : Type := {
  completed : bool;
  incomplete_reason : json;
  status_code : json
}.

(** The two dictionaries the rounds share. *)
Record store : Type := {
  combined_text_by_id : gmap pykey str;
  example_state_by_id : gmap pykey example_state
}.

Definition empty_store : store :=
  {| combined_text_by_id := ∅; example_state_by_id := ∅ |}.

(** A line of a results file: blank after [strip()], or text that
    [json.loads] rejects, or a JSON document. *)
Inductive result_line : Type :=
| Blank
| Malformed
| Doc (obj : json).

Definition has_all_markers (combined_text : str) : bool :=
  contains INQUIRY_START combined_text
  && contains INQUIRY_END combined_text
  && contains SOLUTION_START combined_text
  && contains SOLUTION_END combined_text.

(** [prev + "\n" + full_text_segment] if [prev] else [full_text_segment],
    stripped. *)
Definition append_segment (prev full_text_segment : str) : str :=
  strip (match prev with
         | [] => full_text_segment
         | _ => prev ++ NL ++ full_text_segment
         end).

Definition no_response_state (err : json) : example_state :=
  {| completed := false;
     incomplete_reason :=
       JObj [(lit "reason", JStr (lit "no_response")); (lit "error", err)];
     status_code := JNull |}.

Definition markers_missing : json :=
  JObj [(lit "reason", JStr (lit "markers_missing"))].

(** The branch [if not resp]: the state of the example is overwritten, its
    text is left alone, and the id is reported as incomplete. *)
Definition mark_no_response (k : pykey) (err : json) (st : store)
    (incomplete_ids : list pykey) : store * list pykey :=
  ({| combined_text_by_id := combined_text_by_id st;
      example_state_by_id :=
        <[k := no_response_state err]> (example_state_by_id st) |},
   incomplete_ids ++ [k]).

(** The rest of the loop body, from [prev = combined_text_by_id.get(...)]
    on; [code] is [status_code]. *)
Definition absorb_segment (k : pykey) (code incomplete_details : json)
    (full_text_segment : str) (st : store) (incomplete_ids : list pykey)
  : store * list pykey :=
  let prev := default [] (combined_text_by_id st !! k) in
  let combined := append_segment prev full_text_segment in
  let texts := <[k := combined]> (combined_text_by_id st) in
  if has_all_markers combined then
    ({| combined_text_by_id := texts;
        example_state_by_id :=
          <[k := {| completed := true;
                    incomplete_reason := JNull;
                    status_code := code |}]> (example_state_by_id st) |},
     incomplete_ids)
  else
    ({| combined_text_by_id := texts;
        example_state_by_id :=
          <[k := {| completed := false;
                    incomplete_reason :=
                      or_else incomplete_details markers_missing;
                    status_code := code |}]> (example_state_by_id st) |},
     incomplete_ids ++ [k]).

(** The body of the loop [for line in f], from [json.loads] on.  Every
    operation that may raise comes before the first assignment to a
    dictionary, so an exception leaves the store untouched. *)
Definition process_record (obj : json) (st : store)
    (incomplete_ids : list pykey) : result (store * list pykey) :=
  custom_id ← get obj "custom_id" JNull;
  if negb (truthy custom_id) then Ok (st, incomplete_ids)
  else
    resp ← get obj "response" JNull;
    err ← get obj "error" JNull;
    if negb (truthy resp) then
      k ← as_key custom_id;
      Ok (mark_no_response k err st incomplete_ids)
    else
      code ← get resp "status_code" (JNum 0);
      body0 ← get resp "body" JNull;
      let body := or_else body0 (JObj []) in
      body_status ← get body "status" JNull;
      incomplete_details ← get body "incomplete_details" JNull;
      full_text_segment ← extract_output_text_from_response_obj body;
      k ← as_key custom_id;
      Ok (absorb_segment k code incomplete_details full_text_segment
            st incomplete_ids).

Definition process_line (l : result_line) (st : store) (incomplete_ids : list pykey)
  : result (store * list pykey) :=
  match l with
  | Blank => Ok (st, incomplete_ids)
  | Malformed => Raise JSONDecodeError
  | Doc obj => process_record obj st incomplete_ids
  end.

(** The loop over the lines of the file; the store of the result is the one
    the caller sees afterwards, also when the loop raised. *)
Fixpoint parse_lines (ls : list result_line) (st : store)
    (incomplete_ids : list pykey) : store * result (list pykey) :=
  match ls with
  | [] => (st, Ok incomplete_ids)
  | l :: ls' =>
      match process_line l st incomplete_ids with
      | Ok (st', ids') => parse_lines ls' st' ids'
      | Raise e => (st, Raise e)
      end
  end.

(** [parse_round_results(results_path, round_idx, combined_text_by_id,
    example_state_by_id)]: [results] is the content of the file, and
    [round_idx], which only the log messages use, is left out. *)
Definition parse_round_results (results : list result_line) (st : store)
  : store * result (list pykey) :=
  parse_lines results st [].

(** *** Result records of the documented shape

    A results file in which every line is blank or a record of the batch
    format: an object whose [custom_id], if any, can be a dictionary key,
    and whose [response], if any, is an object with a [body] whose [output]
    is a list of message objects, the [content] of a message a list of item
    objects, and the text of an [output_text] item a string, or an object
    that gives a string. *)

Definition field (f : list (str * json)) (k : string) (dflt : json) : json :=
  default dflt (dict_get f (lit k)).

Definition text_ok (text_field : json) : bool :=
  match text_field with
  | JObj g =>
      match or_else (or_else (field g "value" JNull)
                             (field g "content" JNull)) (JStr []) with
      | JStr _ => true
      | _ => false
      end
  | _ => true
  end.

Definition item_ok (item : json) : bool :=
  match item with
  | JObj f =>
      if is_str (field f "type" JNull) "output_text"
      then text_ok (field f "text" JNull) else true
  | _ => false
  end.

Definition msg_ok (msg : json) : bool :=
  match msg with
  | JObj f =>
      match field f "content" (JArr []) with
      | JArr items => forallb item_ok items
      | _ => true
      end
  | _ => false
  end.

Definition body_ok (body : json) : bool :=
  match body with
  | JObj f =>
      match field f "output" (JArr []) with
      | JArr msgs => forallb msg_ok msgs
      | _ => true
      end
  | _ => false
  end.

Definition record_ok (obj : json) : bool :=
  match obj with
  | JObj f =>
      let custom_id := field f "custom_id" JNull in
      if truthy custom_id then
        match as_key custom_id with
        | Raise _ => false
        | Ok _ =>
            let resp := field f "response" JNull in
            if truthy resp then
              match resp with
              | JObj rf => body_ok (or_else (field rf "body" JNull) (JObj []))
              | _ => false
              end
            else true
        end
      else true
  | _ => false
  end.

Definition line_ok (l : result_line) : bool :=
  match l with
  | Blank => true
  | Malformed => false
  | Doc obj => record_ok obj
  end.

(** All four markers occur in the text. *)
Definition all_markers_occur (t : str) : Prop :=
  occurs INQUIRY_START t /\ occurs INQUIRY_END t
  /\ occurs SOLUTION_START t /\ occurs SOLUTION_END t.

(** *** Vocabulary for the statements about records and rounds *)

(** The key under which a record is filed: its [custom_id], when that is
    truthy and hashable. *)
Definition record_key (obj : json) : option pykey :=
  match get obj "custom_id" JNull with
  | Ok custom_id =>
      if truthy custom_id then
        match as_key custom_id with Ok k => Some k | Raise _ => None end
      else None
  | Raise _ => None
  end.

(** [obj.get("response")] and [obj.get("error")] *)
Definition record_response (obj : json) : json :=
  match get obj "response" JNull with Ok resp => resp | Raise _ => JNull end.

Definition record_error (obj : json) : json :=
  match get obj "error" JNull with Ok err => err | Raise _ => JNull end.

(** The record carries a response payload: [resp] is truthy. *)
Definition has_response (obj : json) : bool := truthy (record_response obj).

(** [resp.get("status_code", 0)], [resp.get("body") or {}] and
    [body.get("incomplete_details")] of the response of a record. *)
Definition response_code (obj : json) : json :=
  match get (record_response obj) "status_code" (JNum 0) with
  | Ok c => c
  | Raise _ => JNum 0
  end.

Definition response_body (obj : json) : json :=
  match get (record_response obj) "body" JNull with
  | Ok body => or_else body (JObj [])
  | Raise _ => JObj []
  end.

Definition response_details (obj : json) : json :=
  match get (response_body obj) "incomplete_details" JNull with
  | Ok d => d
  | Raise _ => JNull
  end.

(** The CombinedText of an example: [combined_text_by_id.get(k, "")]. *)
Definition text_of (st : store) (k : pykey) : str :=
  default [] (combined_text_by_id st !! k).

(** The example is marked completed. *)
Definition is_completed (st : store) (k : pykey) : Prop :=
  exists e, example_state_by_id st !! k = Some e /\ completed e = true.

(** The store after the results files of successive rounds have been
    parsed, starting from the two empty dictionaries of
    [run_example_batch]; a file on which the parser raises counts up to
    the line that raised. *)
Definition replay (files : list (list result_line)) : store :=
  fold_left (fun st results => (parse_round_results results st).1)
            files empty_store.

(** Every stored text is as [strip()] leaves it. *)
Definition texts_stripped (st : store) : Prop :=
  forall k t, combined_text_by_id st !! k = Some t -> strip t = t.

(** A completed example has all four markers in its text. *)
Definition completed_have_markers (st : store) : Prop :=
  forall k, is_completed st k -> has_all_markers (text_of st k) = true.

(** [inner] is the text between the first [start_marker] of [text] and
    the first [end_marker] after it. *)
Definition between (text start_marker end_marker inner : str) : Prop :=
  exists i j,
    first_at start_marker text i
    /\ first_at end_marker (drop (i + length start_marker) text) j
    /\ inner = take j (drop (i + length start_marker) text).

(** There is no such pair of markers in [text]. *)
Definition unmatched (text start_marker end_marker : str) : Prop :=
  forall inner, ~ between text start_marker end_marker inner.

(** What a record that is processed without an exception does. *)
Inductive record_effect (obj : json) (st : store) (ids : list pykey)
  : store * list pykey -> Prop :=
| effect_skip cid :
    get obj "custom_id" JNull = Ok cid ->
    truthy cid = false ->
    record_effect obj st ids (st, ids)
| effect_no_response cid k resp err :
    get obj "custom_id" JNull = Ok cid ->
    truthy cid = true ->
    as_key cid = Ok k ->
    get obj "response" JNull = Ok resp ->
    truthy resp = false ->
    get obj "error" JNull = Ok err ->
    record_effect obj st ids (mark_no_response k err st ids)
| effect_response cid k resp code body0 details seg :
    get obj "custom_id" JNull = Ok cid ->
    truthy cid = true ->
    as_key cid = Ok k ->
    get obj "response" JNull = Ok resp ->
    truthy resp = true ->
    get resp "status_code" (JNum 0) = Ok code ->
    get resp "body" JNull = Ok body0 ->
    get (or_else body0 (JObj [])) "incomplete_details" JNull = Ok details ->
    extract_output_text_from_response_obj (or_else body0 (JObj []))
      = Ok seg ->
    record_effect obj st ids (absorb_segment k code details seg st ids).

(** Every chunk is a string. *)
Definition all_str (chunks : list json) : Prop :=
  Forall (fun v => exists s, v = JStr s) chunks.

(** What holds of the two dictionaries throughout a run. *)
Definition invariant (st : store) : Prop :=
  texts_stripped st /\ completed_have_markers st.

(** *** [run_example_batch] *)

(** The value stored in [spec_by_custom_id]. *)
Record meta : Type := {
  chapter_title : str;
  section_title : str;
  ex_index : nat;
  ex_title : json;
  ex_summary : json
}.

(** [spec_by_custom_id]: a dictionary in insertion order. *)
Abbreviation specs := (list (str * meta)).

(** [d[k] = v]: a key already present keeps its place. *)
Fixpoint od_set (k : str) (v : meta) (d : specs) : specs :=
  match d with
  | [] => [(k, v)]
  | (k', v') :: d' =>
      if decide (k' = k) then (k, v) :: d' else (k', v') :: od_set k v d'
  end.

Fixpoint od_get (k : str) (d : specs) : option meta :=
  match d with
  | [] => None
  | (k', v) :: d' => if decide (k' = k) then Some v else od_get k d'
  end.

(** [f"example::{slugify(chapter_title)}::{slugify(section_title)}::{idx}"] *)
Definition custom_id_of (chapter section : str) (idx : nat) : str :=
  lit "example::" ++ slugify chapter ++ lit "::" ++ slugify section
  ++ lit "::" ++ str_of_nat idx.

(** The body of [for idx, ex in enumerate(examples)] over a list. *)
Fixpoint add_examples (chapter section : str) (idx : nat) (exs : list json)
    (d : specs) : result specs :=
  match exs with
  | [] => Ok d
  | ex :: rest =>
      t ← get ex "title" (JStr (lit "Example " ++ str_of_nat (idx + 1)));
      s ← get ex "summary" (JStr []);
      add_examples chapter section (S idx) rest
        (od_set (custom_id_of chapter section idx)
           {| chapter_title := chapter; section_title := section;
              ex_index := idx; ex_title := t; ex_summary := s |} d)
  end.

(** [enumerate(examples)] for what [plan.get("examples", [])] may be: a
    list is walked; a dictionary or a string yields strings, and [ex.get]
    raises on the first; anything else is not iterable. *)
Definition add_plan_examples (chapter section : str) (examples : json)
    (d : specs) : result specs :=
  match examples with
  | JArr exs => add_examples chapter section 0 exs d
  | JObj [] | JStr [] => Ok d
  | JObj (_ :: _) | JStr (_ :: _) => Raise AttributeError
  | JNull | JBool _ | JNum _ => Raise TypeError
  end.

(** The body of [for section_title in spec["subsections"]]. *)
Definition add_section (plans_by_section : gmap (str * str) json)
    (chapter section : str) (d : specs) : result specs :=
  let plan := default JNull (plans_by_section !! (chapter, section)) in
  if negb (truthy plan) then Ok d
  else
    examples ← get plan "examples" (JArr []);
    add_plan_examples chapter section examples d.

(** The loop that fills [spec_by_custom_id]; [theme_specs] is the constant
    [THEME_SPECS], as pairs of a chapter title and its subsections. *)
Definition build_specs (theme_specs : list (str * list str))
    (plans_by_section : gmap (str * str) json) : result specs :=
  for_each
    (fun spec d =>
       for_each (add_section plans_by_section spec.1) spec.2 d)
    theme_specs [].

(** A batch job as the polling loop sees it: the [status] of the job at
    each call of [client.batches.retrieve], and, once completed, its
    [output_file_id] and the lines of that file. *)
Record batch_job : Type := {
  job_statuses : list str;
  job_output_file_id : option str;
  job_output : list result_line
}.

(** What the run finds outside itself: the results file of a round, if one
    is on disk when the round starts, and the client ([None], or the job
    that the submission of a round creates). *)
Record world : Type := {
  results_on_disk : nat -> option (list result_line);
  client : option (nat -> batch_job)
}.

Definition is_fatal (status : str) : bool :=
  bool_decide (status = lit "failed")
  || bool_decide (status = lit "cancelled")
  || bool_decide (status = lit "expired").

Inductive poll_result : Type :=
| PollCompleted
| PollFatal
| PollForever.

(** The loop [while True: job = client.batches.retrieve(batch_id) ...]: a
    job that never shows a final status keeps the loop polling. *)
Fixpoint poll (statuses : list str) : poll_result :=
  match statuses with
  | [] => PollForever
  | status :: later =>
      if bool_decide (status = lit "completed") then PollCompleted
      else if is_fatal status then PollFatal
      else poll later
  end.

(** How one pass through the body of the round loop ends. *)
Inductive flow (A : Type) : Type :=
| Next (a : A)          (* the end of the body, or [continue] *)
| Break (a : A)         (* [break] *)
| ReturnEmpty           (* [return {}] *)
| Raised (e : exn)
| Diverge.              (* the polling loop never ends *)
Arguments Next {A} a.
Arguments Break {A} a.
Arguments ReturnEmpty {A}.
Arguments Raised {A} e.
Arguments Diverge {A}.

(** From [if results_path.exists()] to the results file being on disk. *)
Definition obtain_results (w : world) (round_idx : nat)
  : flow (list result_line) :=
  match results_on_disk w round_idx with
  | Some results => Next results
  | None =>
      match client w with
      | None => Break []
      | Some submit =>
          let job := submit round_idx in
          match poll (job_statuses job) with
          | PollCompleted =>
              match job_output_file_id job with
              | None | Some [] => ReturnEmpty
              | Some _ => Next (job_output job)
              end
          | PollFatal => ReturnEmpty
          | PollForever => Diverge
          end
      end
  end.

(** [custom_id in spec_by_custom_id] *)
Definition known (d : specs) (k : pykey) : bool :=
  match k with
  | KStr s => match od_get s d with Some _ => true | None => false end
  | _ => false
  end.

(** The body of [for round_idx in range(1, max_rounds + 1)].  Writing the
    requests file looks every remaining id up in [spec_by_custom_id]
    ([KeyError]); the prompts themselves are not modelled. *)
Definition run_round (d : specs) (w : world) (round_idx : nat)
    (s : store * list pykey) : flow (store * list pykey) :=
  let '(st, remaining_ids) := s in
  match remaining_ids with
  | [] => Break s
  | _ :: _ =>
      if negb (forallb (known d) remaining_ids) then Raised KeyError
      else
        match obtain_results w round_idx with
        | Next results =>
            match parse_round_results results st with
            | (st', Ok []) => Break (st', [])
            | (st', Ok ids) => Next (st', ids)
            | (_, Raise e) => Raised e
            end
        | Break _ => Break s
        | ReturnEmpty => ReturnEmpty
        | Raised e => Raised e
        | Diverge => Diverge
        end
  end.

Fixpoint run_rounds (d : specs) (w : world) (rounds : list nat)
    (s : store * list pykey) : flow (store * list pykey) :=
  match rounds with
  | [] => Next s
  | round_idx :: later =>
      match run_round d w round_idx s with
      | Next s' => run_rounds d w later s'
      | other => other
      end
  end.

(** The value stored in [example_outputs]. *)
Record example_output : Type := {
  title : json;
  inquiry : str;
  solution : str
}.

Abbreviation outputs := (gmap (str * str * nat) example_output).

(** The body of [for custom_id, meta in spec_by_custom_id.items()]. *)
Definition add_output (st : store) (outs : outputs) (entry : str * meta)
  : outputs :=
  let '(custom_id, m) := entry in
  let combined :=
    strip (default [] (combined_text_by_id st !! KStr custom_id)) in
  match combined with
  | [] => outs
  | _ :: _ =>
      let inquiry_block :=
        extract_block combined INQUIRY_START INQUIRY_END in
      let solution_block :=
        extract_block combined SOLUTION_START SOLUTION_END in
      <[(chapter_title m, section_title m, ex_index m) :=
          {| title := ex_title m;
             inquiry := inquiry_block;
             solution := match solution_block with
                         | [] => combined
                         | _ :: _ => solution_block
                         end |}]> outs
  end.

Definition final_outputs (d : specs) (st : store) : outputs :=
  fold_left (add_output st) d ∅.

(** How a call of [run_example_batch] ends. *)
Inductive outcome : Type :=
| Returns (example_outputs : outputs)
| Raises (e : exn)
| Diverges.

(** The state with which the round loop starts. *)
Definition initial (d : specs) : store * list pykey :=
  (empty_store, map (fun entry => KStr entry.1) d).

Definition run_example_batch (theme_specs : list (str * list str))
    (w : world) (plans_by_section : gmap (str * str) json)
    (max_rounds : Z) : outcome :=
  match build_specs theme_specs plans_by_section with
  | Raise e => Raises e
  | Ok [] => Returns ∅
  | Ok d =>
      match run_rounds d w (seq 1 (Z.to_nat max_rounds)) (initial d) with
      | Next (st, _) | Break (st, _) => Returns (final_outputs d st)
      | ReturnEmpty => Returns ∅
      | Raised e => Raises e
      | Diverge => Diverges
      end
  end.

(** The key of [example_outputs] for an entry of [spec_by_custom_id]. *)
Definition output_key (m : meta) : str * str * nat :=
  (chapter_title m, section_title m, ex_index m).

(** A status on which the polling loop goes on polling. *)
Definition is_pending (status : str) : bool :=
  negb (bool_decide (status = lit "completed")) && negb (is_fatal status).

(** Every id of [spec_by_custom_id] is the one its entry is built from,
    and no id is bound twice. *)
Definition specs_wf (d : specs) : Prop :=
  NoDup (map fst d)
  /\ forall cid m, (cid, m) ∈ d ->
       cid = custom_id_of (chapter_title m) (section_title m) (ex_index m).

(** The entry of [example_outputs] written for an example whose stripped
    text is [combined]. *)
Definition output_for (m : meta) (combined : str) : example_output :=
  {| title := ex_title m;
     inquiry := extract_block combined INQUIRY_START INQUIRY_END;
     solution := match extract_block combined SOLUTION_START SOLUTION_END with
                 | [] => combined
                 | b => b
                 end |}.

End Batch.

(** ** The LaTeX region tools ([methods-book/tools]) *)

Module Latex.
Import Py.

Definition NL : str := [LF].

(** *** [parse_errors] *)

Definition ERROR_PATTERNS : list str :=
  [ lit "Missing $ inserted.";
    lit "Bad math environment delimiter.";
    lit "\begin{aligned} allowed only in math mode.";
    lit "Undefined control sequence." ].

(** [ERROR_RE.search(line)]: the patterns are escaped literals, so the
    search succeeds when one of them occurs in the line. *)
Definition ERROR_RE_search (l : str) : bool :=
  existsb (fun p => contains p l) ERROR_PATTERNS.

(** [re.match(r"l\.(\d+)\s", l)], returning [int(m.group(1))]: the digits
    are taken greedily, and giving some back cannot help, since a digit is
    not white space. *)
Definition match_line_no (l : str) : option Z :=
  if startswith (lit "l.") l then
    let rest := drop 2 l in
    let digits := take_while isdigit rest in
    match digits, drop (length digits) rest with
    | _ :: _, c :: _ => if isspace c then Some (int_of_digits digits) else None
    | _, _ => None
    end
  else None.

(** An element of the list [parse_errors] returns. *)
Record latex_error : Type := {
  line : Z;
  context_chunk : str
}.

(** The inner loop [for j in range(i + 1, min(i + 6, len(lines)))], up to
    its [break]. *)
Fixpoint first_line_no (lines : list str) (js : list nat)
  : option (nat * Z) :=
  match js with
  | [] => None
  | j :: js' =>
      match lines !! j with
      | Some l =>
          match match_line_no l with
          | Some n => Some (j, n)
          | None => first_line_no lines js'
          end
      | None => first_line_no lines js'
      end
  end.

Definition lookahead (lines : list str) (i : nat) : list nat :=
  seq (i + 1) (Nat.min (i + 6) (length lines) - (i + 1)).

(** The body of [for i, line in enumerate(lines)]. *)
Definition error_at (lines : list str) (i : nat) (l : str)
  : option latex_error :=
  if startswith (lit "!") l && ERROR_RE_search l then
    match first_line_no lines (lookahead lines i) with
    | Some (j, line_no) =>
        let context_start := Z.max 0 (Z.of_nat i - 20) in
        Some {| line := line_no;
                context_chunk :=
                  join NL (slice lines context_start (Z.of_nat j + 1)) |}
    | None => None
    end
  else None.

Fixpoint scan_errors (lines : list str) (i : nat) (rest : list str)
  : list latex_error :=
  match rest with
  | [] => []
  | l :: rest' =>
      match error_at lines i l with
      | Some e => e :: scan_errors lines (S i) rest'
      | None => scan_errors lines (S i) rest'
      end
  end.

Definition parse_errors (log_text : str) : list latex_error :=
  let lines := splitlines log_text in
  scan_errors lines 0 lines.

(** *** [guess_file] *)

Definition TEX : str := lit ".tex".

Definition not_rparen (c : ascii) : bool := negb (bool_decide (c = ")"%char)).

(** The fixed head of the pattern, [\(\./(?:themes|exams)/]: the part of it
    inside the group, and the text that follows it. *)
Definition opener (s : str) : option (str * str) :=
  if startswith (lit "(./themes/") s then Some (lit "./themes/", drop 10 s)
  else if startswith (lit "(./exams/") s then Some (lit "./exams/", drop 9 s)
  else None.

(** [[^)]+\.tex] at the start of [rest]: the number of characters the class
    takes.  The class is greedy and gives back one character at a time, so
    the match ends at the last [.tex] before the next [)]. *)
Definition body_match (rest : str) : option nat :=
  match take_while not_rparen rest with
  | [] => None
  | _ :: run =>
      match rfind TEX run with
      | Some k => Some (S k)
      | None => None
      end
  end.

(** A match of [\((\./(?:themes|exams)/[^)]+\.tex)] at the start of [s]:
    its group, and the length of the whole match. *)
Definition match_at (s : str) : option (str * nat) :=
  match opener s with
  | Some (head, rest) =>
      match body_match rest with
      | Some k =>
          Some (head ++ take k rest ++ TEX,
                (1 + length head + k + length TEX)%nat)
      | None => None
      end
  | None => None
  end.

(** [re.findall]: matches from left to right, none overlapping another;
    [skip] counts the characters of the last match still to be passed. *)
Fixpoint findall_go (skip : nat) (s : str) : list str :=
  match s with
  | [] => []
  | _ :: s' =>
      match skip with
      | S k => findall_go k s'
      | O =>
          match match_at s with
          | Some (m, len) => m :: findall_go (len - 1) s'
          | None => findall_go 0 s'
          end
      end
  end.

Definition findall (s : str) : list str := findall_go 0 s.

Definition guess_file (context_chunk : str) : str :=
  match last (findall context_chunk) with
  | Some m => drop 2 m
  | None => lit "main.tex"
  end.

(** A file-open head, [(./themes/] or [(./exams/], starts [s]. *)
Definition opens (s : str) : bool :=
  match opener s with Some _ => true | None => false end.

Definition has_rparen (s : str) : bool :=
  existsb (fun c => negb (not_rparen c)) s.

(** No file-open head starts anywhere in [s]. *)
Fixpoint no_opener (s : str) : bool :=
  match s with
  | [] => true
  | _ :: s' => negb (opens s) && no_opener s'
  end.

(** Every file-open head in [s] is followed, later in [s], by a closing
    parenthesis: the files opened in [s] are closed in [s]. *)
Fixpoint closed (s : str) : bool :=
  match s with
  | [] => true
  | _ :: s' => (if opens s then has_rparen s else true) && closed s'
  end.

Definition is_lparen (c : ascii) : bool := bool_decide (c = "("%char).

(** Text that is empty or starts with an opening parenthesis. *)
Definition at_lparen (t : str) : Prop :=
  t = [] \/ exists t', t = "("%char :: t'.

(** *** [collect_regions] *)

(** An element of the list [collect_regions] returns. *)
Record region : Type := {
  file : str;
  error_line : Z;
  start_line : Z;
  end_line : Z;
  snippet_raw : list str;
  snippet_numbered : str
}.

(** [f"{i:5d}"] *)
Definition format_5d (i : Z) : str :=
  let digits := lit (NilEmpty.string_of_int (Z.to_int i)) in
  replicate (5 - length digits) " "%char ++ digits.

(** [f"{i:5d}  {line}" for i, line in enumerate(block, start=start)] *)
Fixpoint numbered (i : Z) (block : list str) : list str :=
  match block with
  | [] => []
  | l :: block' => (format_5d i ++ lit "  " ++ l) :: numbered (i + 1) block'
  end.

(** The region around line [center] of a file whose text is [text]. *)
Definition region_of (file_rel : str) (text : str) (center radius : Z)
  : region :=
  let lines := splitlines text in
  let start := Z.max 1 (center - radius) in
  let end_ := Z.min (Z.of_nat (length lines)) (center + radius) in
  {| file := file_rel;
     error_line := center;
     start_line := start;
     end_line := end_;
     snippet_raw := slice lines (start - 1) end_;
     snippet_numbered := join NL (numbered start (slice lines (start - 1) end_))
  |}.

(** The body of [for err in base_errors]; [fs] gives the text of the file
    at a path relative to [ROOT], if there is one. *)
Definition collect_step (fs : str -> option str) (radius : Z)
    (acc : gset (str * Z) * list region) (err : latex_error)
  : gset (str * Z) * list region :=
  let '(seen, regions) := acc in
  let file_rel := guess_file (context_chunk err) in
  let key := (file_rel, line err) in
  if decide (key ∈ seen) then acc
  else
    match fs file_rel with
    | None => ({[ key ]} ∪ seen, regions)
    | Some text =>
        ({[ key ]} ∪ seen,
         regions ++ [region_of file_rel text (line err) radius])
    end.

Definition collect_regions (fs : str -> option str) (log_text : str)
    (radius : Z) : list region :=
  (fold_left (collect_step fs radius) (parse_errors log_text) (∅, [])).2.

(** *** [make_patch_for_region] *)

(** [new_all_lines = all_lines.copy(); new_all_lines[start-1:end] = new_block] *)
Definition new_all_lines (all_lines : list str) (start end_ : Z)
    (new_block : list str) : list str :=
  slice_assign all_lines (start - 1) end_ new_block.

(** The two sides of the whole-file diff that [make_patch_for_region]
    renders with [difflib.unified_diff]: the lines of the file as read, and
    the lines with the fixed block spliced in.  [text] is what
    [tex_path.read_text] returned. *)
Definition make_patch_for_region (text : str) (r : region)
    (fixed_snippet_text : str) : list str * list str :=
  let all_lines := splitlines text in
  let new_block := splitlines fixed_snippet_text in
  (all_lines, new_all_lines all_lines (start_line r) (end_line r) new_block).

(** Line [n] of a file, counted from 1. *)
Definition line_at (lines : list str) (n : Z) : option str :=
  if n <? 1 then None else lines !! Z.to_nat (n - 1).

(** The lines [first .. last] of a file, counted from 1, both included. *)
Definition lines_between (lines : list str) (first last : Z) : list str :=
  omap (fun n => lines !! n)
       (seq (Z.to_nat first - 1) (Z.to_nat last + 1 - Z.to_nat first)).

(** What [parse_errors] records for the error line at index [i]: the
    line number of the first [l.<N>] line among the five lines that follow,
    at index [j], and as context the lines from index [max(0, i - 20)] to
    index [j], both included. *)
Definition error_found (lines : list str) (i j : nat) (e : latex_error)
  : Prop :=
  (i < j <= i + 5)%nat
  /\ (exists l, lines !! i = Some l
                /\ startswith (lit "!") l = true
                /\ ERROR_RE_search l = true)
  /\ (exists l, lines !! j = Some l /\ match_line_no l = Some (line e))
  /\ (forall j' l', (i < j' < j)%nat -> lines !! j' = Some l' ->
        match_line_no l' = None)
  /\ context_chunk e
     = join NL (slice lines (Z.max 0 (Z.of_nat i - 20)) (Z.of_nat j + 1)).

(** The region that [collect_regions] builds for an error. *)
Definition region_for (fs : str -> option str) (radius : Z) (e : latex_error)
    (r : region) : Prop :=
  exists text,
    fs (guess_file (context_chunk e)) = Some text
    /\ r = region_of (guess_file (context_chunk e)) text (line e) radius.

End Latex.

(** ** Concrete inputs

    The result records of [tests/test_openai_batch.py], and a few records
    and logs in the same formats. *)

Module Scenarios.
Import Py Json Batch Latex.

(** The lines of a text, each followed by a newline. *)
Definition text_lines (l : list string) : str :=
  concat (map (fun s => lit s ++ [LF]) l).

Definition obj (fields : list (string * json)) : json :=
  JObj (map (fun kv => (lit kv.1, kv.2)) fields).

Definition jstr (s : string) : json := JStr (lit s).

(** A message whose only content is one [output_text] item. *)
Definition message (text : str) : json :=
  obj [("id", jstr "msg_mock"); ("type", jstr "message");
       ("status", jstr "completed");
       ("content",
        JArr [obj [("type", jstr "output_text");
                   ("text", obj [("value", JStr text)])]])].

Definition reasoning : json :=
  obj [("id", jstr "rs_mock"); ("type", jstr "reasoning");
       ("summary", JArr [])].

Definition ID0 : str :=
  lit "example::complex-analysis::analytic-functions-and-integration-along-contours::0".
Definition ID1 : str :=
  lit "example::complex-analysis::analytic-functions-and-integration-along-contours::1".
Definition ID2 : str :=
  lit "example::complex-analysis::analytic-functions-and-integration-along-contours::2".

Definition COMPLETE_TEXT : str :=
  text_lines
    [ "%%% INQUIRY START %%%";
      "\begin{problem}[Direct Computation]";
      "Inquiry body here.";
      "\end{problem}";
      "%%% INQUIRY END %%%";
      "%%% SOLUTION START %%%";
      "\begin{problem}[Direct Computation]";
      "Problem statement.";
      "\end{problem}";
      "\begin{solution}";
      "Solution body here.";
      "\end{solution}";
      "%%% SOLUTION END %%%" ].

Definition PARTIAL_TEXT : str :=
  text_lines
    [ "%%% INQUIRY START %%%";
      "Inquiry...";
      "%%% INQUIRY END %%%";
      "%%% SOLUTION START %%%";
      "Partial solution, but missing end marker." ].

Definition MOCK_BATCH_RESULT_COMPLETE : json :=
  obj [("id", jstr "batch_req_mock_0");
       ("custom_id", JStr ID0);
       ("response",
        obj [("status_code", JNum 200);
             ("request_id", jstr "req_mock_0");
             ("body",
              obj [("id", jstr "resp_mock_0");
                   ("object", jstr "response");
                   ("status", jstr "completed");
                   ("incomplete_details", JNull);
                   ("output", JArr [reasoning; message COMPLETE_TEXT])])]);
       ("error", JNull)].

Definition MAX_OUTPUT_TOKENS : json :=
  obj [("reason", jstr "max_output_tokens")].

Definition MOCK_BATCH_RESULT_INCOMPLETE_NO_SOL_END : json :=
  obj [("id", jstr "batch_req_mock_1");
       ("custom_id", JStr ID1);
       ("response",
        obj [("status_code", JNum 200);
             ("request_id", jstr "req_mock_1");
             ("body",
              obj [("id", jstr "resp_mock_1");
                   ("object", jstr "response");
                   ("status", jstr "incomplete");
                   ("incomplete_details", MAX_OUTPUT_TOKENS);
                   ("output", JArr [reasoning; message PARTIAL_TEXT])])]);
       ("error", JNull)].

Definition MOCK_ERROR : json := obj [("message", jstr "mock error")].

Definition MOCK_BATCH_RESULT_NO_RESPONSE : json :=
  obj [("id", jstr "batch_req_mock_2");
       ("custom_id", JStr ID2);
       ("response", JNull);
       ("error", MOCK_ERROR)].

(** A continuation of example 1 that was cut off while the model was still
    reasoning: the response has no [output_text]. *)
Definition CONTINUATION_WITHOUT_TEXT : json :=
  obj [("id", jstr "batch_req_mock_3");
       ("custom_id", JStr ID1);
       ("response",
        obj [("status_code", JNum 200);
             ("body",
              obj [("status", jstr "incomplete");
                   ("incomplete_details", MAX_OUTPUT_TOKENS);
                   ("output", JArr [reasoning])])]);
       ("error", JNull)].

(** A record for example 0 that came back without a response. *)
Definition NO_RESPONSE_FOR_0 : json :=
  obj [("id", jstr "batch_req_mock_4");
       ("custom_id", JStr ID0);
       ("response", JNull);
       ("error", MOCK_ERROR)].

(** A response for example 1 that was cut short and whose
    [incomplete_details] is the empty object. *)
Definition EMPTY_DETAILS : json :=
  obj [("id", jstr "batch_req_mock_6");
       ("custom_id", JStr ID1);
       ("response",
        obj [("status_code", JNum 200);
             ("body",
              obj [("status", jstr "incomplete");
                   ("incomplete_details", JObj []);
                   ("output", JArr [reasoning; message PARTIAL_TEXT])])]);
       ("error", JNull)].

(** A record with a complete response but no [custom_id]. *)
Definition ANONYMOUS_COMPLETE : json :=
  obj [("id", jstr "batch_req_mock_5");
       ("response",
        obj [("status_code", JNum 200);
             ("body", obj [("output", JArr [message COMPLETE_TEXT])])]);
       ("error", JNull)].

(** The plan of [test_run_example_batch_single_round_complete]: one
    section with two examples. *)
Definition CHAPTER : str := lit "Complex Analysis".
Definition SECTION : str :=
  lit "Analytic Functions and Integration along Contours".

Definition THEME : list (str * list str) := [(CHAPTER, [SECTION])].

Definition TITLE0 : json :=
  jstr "Direct Computation of a Contour Integral on a Circle".
Definition TITLE1 : json :=
  jstr "Path Independence and Analytic Primitives".

Definition PLANS : gmap (str * str) json :=
  {[ (CHAPTER, SECTION) :=
       obj [("narrative", jstr "Some narrative.");
            ("examples",
             JArr [obj [("title", TITLE0);
                        ("summary",
                         jstr "Compute z^2 around the unit circle.")];
                   obj [("title", TITLE1);
                        ("summary",
                         jstr "Compare 2z and 1/z along different paths.")]])]
  ]}.

Definition SPECS : specs :=
  [ (ID0, {| chapter_title := CHAPTER; section_title := SECTION;
             ex_index := 0; ex_title := TITLE0;
             ex_summary := jstr "Compute z^2 around the unit circle." |});
    (ID1, {| chapter_title := CHAPTER; section_title := SECTION;
             ex_index := 1; ex_title := TITLE1;
             ex_summary :=
               jstr "Compare 2z and 1/z along different paths." |}) ].

(** The results file of round 1, and nothing else on disk. *)
Definition ROUND1 : list result_line :=
  [Doc MOCK_BATCH_RESULT_COMPLETE;
   Doc MOCK_BATCH_RESULT_INCOMPLETE_NO_SOL_END].

Definition ROUND1_ON_DISK (round_idx : nat) : option (list result_line) :=
  if decide (round_idx = 1%nat) then Some ROUND1 else None.

Definition ROUND1_STORE : store := (parse_round_results ROUND1 empty_store).1.

(** No client: the run uses what is on disk. *)
Definition OFFLINE : world :=
  {| results_on_disk := ROUND1_ON_DISK; client := None |}.

(** A client whose jobs fail after one poll. *)
Definition FAILING_JOB : batch_job :=
  {| job_statuses := [lit "in_progress"; lit "failed"];
     job_output_file_id := None;
     job_output := [] |}.

Definition FAILING : world :=
  {| results_on_disk := ROUND1_ON_DISK;
     client := Some (fun _ => FAILING_JOB) |}.

(** The log and the file of [test_collect_single_error_with_file_and_line]. *)
Definition LOG_SINGLE : str :=
  text_lines
    [ "";
      "(./themes/pde.tex";
      "! Missing $ inserted.";
      "<inserted text> ";
      "            $";
      "l.20 This is bad math: \alpha + 1]";
      ") (./themes/ode.tex" ].

Definition BAD_LINE : str := lit "This is bad math: \alpha + 1]".

Definition PDE_TEX : str :=
  concat (map (fun i => lit "% line " ++ str_of_nat i ++ [LF]) (seq 1 19))
  ++ BAD_LINE ++ [LF]
  ++ concat (map (fun i => lit "% line " ++ str_of_nat i ++ [LF]) (seq 21 10)).

Definition ONLY_PDE (path : str) : option str :=
  if decide (path = lit "themes/pde.tex") then Some PDE_TEX else None.

(** An error reported for line 50 while the only file, [main.tex], has
    three lines. *)
Definition LOG_LINE_50 : str :=
  text_lines [ "! Undefined control sequence."; "l.50 \foo" ].

Definition ONLY_MAIN (path : str) : option str :=
  if decide (path = lit "main.tex")
  then Some (text_lines ["% main header"; "main bad line"; "% main footer"])
  else None.

(** The log of [test_collect_multiple_errors_different_files]. *)
Definition LOG_TWO_FILES : str :=
  text_lines
    [ "";
      "(./themes/pde.tex";
      "! Missing $ inserted.";
      "<inserted text> ";
      "            $";
      "l.6 pde bad line";
      ") (./themes/complex_analysis.tex";
      "! Package amsmath: \begin{aligned} allowed only in math mode.";
      "l.6 ca bad line";
      ")" ].

(** A log in which the source line quoted after [l.5] itself contains the
    text of a file-open marker. *)
Definition LOG_MARKER_IN_SOURCE : str :=
  text_lines
    [ "(./themes/a.tex)";
      "! Undefined control sequence.";
      "l.5 \foo (./themes/b.tex" ].

(** The window of the second error of [LOG_TWO_FILES], cut around the
    last file-open marker in it. *)
Definition TWO_FILES_PRE : str :=
  text_lines
    [ "";
      "(./themes/pde.tex";
      "! Missing $ inserted.";
      "<inserted text> ";
      "            $";
      "l.6 pde bad line" ]
  ++ lit ") ".

Definition TWO_FILES_POST : str :=
  [LF]
  ++ lit "! Package amsmath: \begin{aligned} allowed only in math mode."
  ++ [LF] ++ lit "l.6 ca bad line".

(** Two files opened one inside the other, neither closed before the
    error. *)
Definition LOG_NESTED : str :=
  text_lines
    [ "(./themes/a.tex (./themes/b.tex";
      "! Undefined control sequence.";
      "l.3 \foo" ].

End Scenarios.

(* ===================================================================== *)
(** * Part II: properties *)
(* ===================================================================== *)

(** ** Facts about the string operations *)

Module PyFacts.
Import Py.

Section DropWhile.
Context {A : Type} (p : A -> bool).

Lemma drop_while_idem (l : list A) :
  drop_while p (drop_while p l) = drop_while p l.
Proof.
  induction l as [|x l IH]; simpl; [done|].
  destruct (p x) eqn:Hx; [done|]. simpl. by rewrite Hx.
Qed.

Lemma drop_while_suffix (l : list A) : drop_while p l `suffix_of` l.
Proof.
  induction l as [|x l IH]; simpl; [done|].
  destruct (p x); [by apply suffix_cons_r | done].
Qed.

Lemma drop_while_head_ok (l : list A) : head_ok p (drop_while p l).
Proof.
  induction l as [|x l IH]; simpl; [done|].
  destruct (p x) eqn:Hx; [done|]. simpl. done.
Qed.

Lemma drop_while_fixed (l : list A) : head_ok p l -> drop_while p l = l.
Proof. destruct l as [|x l]; simpl; [done|]. by intros ->. Qed.

Lemma fixed_head_ok (l : list A) : drop_while p l = l -> head_ok p l.
Proof. intros <-. apply drop_while_head_ok. Qed.

Lemma head_ok_app (l k : list A) : l <> [] -> head_ok p l -> head_ok p (l ++ k).
Proof. by destruct l. Qed.

Lemma head_ok_prefix (l k : list A) : head_ok p (l ++ k) -> head_ok p l.
Proof. by destruct l. Qed.
End DropWhile.

Lemma strip_with_clean p s : clean p s -> strip_with p s = s.
Proof.
  intros [H1 H2]. unfold strip_with.
  rewrite (drop_while_fixed p s H1), (drop_while_fixed p _ H2).
  apply rev_involutive.
Qed.

Lemma strip_with_is_clean p s : clean p (strip_with p s).
Proof.
  unfold strip_with, clean. rewrite rev_involutive.
  split; [|apply drop_while_head_ok].
  set (t := drop_while p s).
  destruct (drop_while_suffix p (rev t)) as [k Hk].
  assert (Ht : t = rev (drop_while p (rev t)) ++ rev k).
  { rewrite <- rev_app_distr, <- Hk. by rewrite rev_involutive. }
  apply (head_ok_prefix p _ (rev k)). rewrite <- Ht.
  apply drop_while_head_ok.
Qed.

Lemma clean_fixed p s : strip_with p s = s -> clean p s.
Proof. intros <-. apply strip_with_is_clean. Qed.

Lemma strip_with_idem p s : strip_with p (strip_with p s) = strip_with p s.
Proof. apply strip_with_clean, strip_with_is_clean. Qed.

Lemma strip_with_nil p : strip_with p [] = [].
Proof. done. Qed.

Lemma clean_app p a x b :
  a <> [] -> b <> [] -> clean p a -> clean p b -> clean p (a ++ x ++ b).
Proof.
  intros Ha Hb [Ha1 _] [_ Hb2]. split.
  - by apply head_ok_app.
  - rewrite !rev_app_distr, <- app_assoc. apply head_ok_app; [|done].
    intros Hr. apply Hb. by rewrite <- (rev_involutive b), Hr.
Qed.

Lemma strip_with_app_sep p a c :
  a <> [] -> clean p a -> p c = true -> strip_with p (a ++ [c]) = a.
Proof.
  intros Ha [Ha1 Ha2] Hc. unfold strip_with.
  rewrite (drop_while_fixed p (a ++ [c])) by by apply head_ok_app.
  rewrite rev_app_distr. simpl. rewrite Hc.
  rewrite (drop_while_fixed p _ Ha2). apply rev_involutive.
Qed.

(** *** [startswith], [find] and [contains] *)

Lemma startswith_prefix (p s : str) :
  startswith p s = true <-> p `prefix_of` s.
Proof.
  revert s. induction p as [|a p IH]; intros s; simpl.
  - split; [intros _; apply prefix_nil | done].
  - destruct s as [|b s].
    + split; [done|]. intros [k Hk]. discriminate.
    + destruct (decide (a = b)) as [->|Hne].
      * rewrite IH. split; [apply prefix_cons | apply prefix_cons_inv_2].
      * split; [done|]. intros H. by apply prefix_cons_inv_1 in H.
Qed.

Lemma startswith_app (p s t : str) :
  startswith p s = true -> startswith p (s ++ t) = true.
Proof.
  rewrite !startswith_prefix. intros H. by apply prefix_app_r.
Qed.

Lemma startswith_self_app (p t : str) : startswith p (p ++ t) = true.
Proof. apply startswith_prefix. by apply prefix_app_r. Qed.

Lemma find_unfold (sub s : str) :
  find sub s =
  if startswith sub s then Some 0%nat
  else match s with
       | [] => None
       | _ :: s' => S <$> find sub s'
       end.
Proof. destruct s; simpl; [done|]. by destruct (find sub s). Qed.

Lemma contains_app (sub a b : str) :
  contains sub a = true -> contains sub (a ++ b) = true.
Proof.
  unfold contains. induction a as [|c a IH].
  - rewrite (find_unfold sub []). destruct (startswith sub []) eqn:H; [|done].
    intros _. rewrite find_unfold, (startswith_app _ [] b H). done.
  - rewrite (find_unfold sub (c :: a)).
    destruct (startswith sub (c :: a)) eqn:H.
    + intros _. change ((c :: a) ++ b) with ((c :: a) ++ b).
      rewrite find_unfold, (startswith_app _ _ b H). done.
    + intros Hf. simpl app. rewrite (find_unfold sub (c :: a ++ b)).
      destruct (startswith sub (c :: a ++ b)); [done|].
      destruct (find sub a); [|done]. specialize (IH eq_refl).
      by destruct (find sub (a ++ b)).
Qed.

Lemma occurs_at_0 (sub s : str) :
  occurs_at sub s 0 <-> startswith sub s = true.
Proof.
  rewrite startswith_prefix. unfold occurs_at. rewrite drop_0. split.
  - intros (b & -> & _). by apply prefix_app_r.
  - intros [b ->]. exists b. split; [done | lia].
Qed.

Lemma occurs_at_S (sub : str) c s k :
  occurs_at sub (c :: s) (S k) <-> occurs_at sub s k.
Proof.
  unfold occurs_at. simpl.
  split; intros (b & Hb & Hk); exists b; (split; [done | lia]).
Qed.

Lemma occurs_at_nil (sub : str) k : occurs_at sub [] k -> k = 0%nat.
Proof. intros (b & _ & Hk). simpl in Hk. lia. Qed.

Lemma find_first_at (sub s : str) k : find sub s = Some k -> first_at sub s k.
Proof.
  revert k. induction s as [|c s IH]; intros k; rewrite find_unfold.
  - destruct (startswith sub []) eqn:H; [|done]. intros [= <-].
    split; [by apply occurs_at_0 | lia].
  - destruct (startswith sub (c :: s)) eqn:H.
    + intros [= <-]. split; [by apply occurs_at_0 | lia].
    + destruct (find sub s) as [k'|]; [|done]. intros [= <-].
      destruct (IH k' eq_refl) as [Hocc Hmin]. split.
      * by apply occurs_at_S.
      * intros [|j] Hj.
        -- rewrite occurs_at_0. congruence.
        -- rewrite occurs_at_S. apply Hmin. lia.
Qed.

Lemma find_None (sub s : str) k : find sub s = None -> ~ occurs_at sub s k.
Proof.
  revert k. induction s as [|c s IH]; intros k; rewrite find_unfold.
  - destruct (startswith sub []) eqn:H; [done|]. intros _ Hk.
    pose proof (occurs_at_nil _ _ Hk) as ->.
    apply occurs_at_0 in Hk. congruence.
  - destruct (startswith sub (c :: s)) eqn:H; [done|].
    destruct (find sub s) eqn:Hf; [done|]. intros _.
    destruct k as [|k].
    + rewrite occurs_at_0. congruence.
    + rewrite occurs_at_S. by apply IH.
Qed.

Lemma first_at_unique (sub s : str) j k :
  first_at sub s j -> first_at sub s k -> j = k.
Proof.
  intros [Hj Hj'] [Hk Hk'].
  destruct (lt_eq_lt_dec j k) as [[Hlt| ->]|Hlt]; [|done|].
  - destruct (Hk' j Hlt Hj).
  - destruct (Hj' k Hlt Hk).
Qed.

Lemma first_at_find (sub s : str) k : first_at sub s k -> find sub s = Some k.
Proof.
  intros Hk. destruct (find sub s) as [j|] eqn:Hf.
  - f_equal. eapply first_at_unique; [|done]. by apply find_first_at.
  - destruct Hk as [Hk _]. by destruct (find_None sub s k Hf).
Qed.

Lemma occurs_at_occurs (sub s : str) k : occurs_at sub s k -> occurs sub s.
Proof.
  intros (b & Hb & Hk). exists (take k s), b.
  by rewrite <- Hb, take_drop.
Qed.

Lemma occurs_occurs_at (sub s : str) :
  occurs sub s -> exists k, occurs_at sub s k.
Proof.
  intros (a & b & ->). exists (length a), b. split.
  - by rewrite drop_app_length.
  - rewrite length_app. lia.
Qed.

Lemma contains_occurs (sub s : str) : contains sub s = true <-> occurs sub s.
Proof.
  unfold contains. split.
  - destruct (find sub s) as [k|] eqn:Hf; [|done]. intros _.
    apply find_first_at in Hf as [Hk _]. by eapply occurs_at_occurs.
  - intros [k Hk]%occurs_occurs_at.
    destruct (find sub s) eqn:Hf; [done|]. by destruct (find_None _ _ k Hf).
Qed.

Lemma index_first_at (s sub : str) (start k : nat) :
  index s sub start = Some k <->
  exists j, k = (start + j)%nat /\ first_at sub (drop start s) j.
Proof.
  unfold index. split.
  - destruct (find sub (drop start s)) as [j|] eqn:Hf; [|done].
    intros [= <-]. exists j. split; [done|]. by apply find_first_at.
  - intros (j & -> & Hj). by rewrite (first_at_find _ _ _ Hj).
Qed.

Lemma index_None (s sub : str) (start : nat) :
  index s sub start = None <-> forall j, ~ first_at sub (drop start s) j.
Proof.
  unfold index. split.
  - destruct (find sub (drop start s)) eqn:Hf; [done|].
    intros _ j [Hj _]. by destruct (find_None _ _ j Hf).
  - intros H. destruct (find sub (drop start s)) as [j|] eqn:Hf; [|done].
    destruct (H j). by apply find_first_at.
Qed.

End PyFacts.

(** ** Facts about the batch completion engine *)

Module BatchFacts.
Import Py Json Batch PyFacts.

(** Case analysis on the next operation of a computation that may raise. *)
Ltac step_bind H :=
  match type of H with
  | mbind _ ?m = Ok _ =>
      let E := fresh "E" in
      destruct m eqn:E; simpl in H; [|discriminate H]
  end.

Lemma bind_Ok {A B} (f : A -> result B) (m : result A) (b : B) :
  (x ← m; f x) = Ok b <-> exists a, m = Ok a /\ f a = Ok b.
Proof.
  destruct m as [a|e]; simpl.
  - split; [by exists a | by intros (? & [= ->] & ?)].
  - split; [done | by intros (? & ? & ?)].
Qed.

(** *** The loop over the lines *)

Lemma parse_lines_app (l1 l2 : list result_line) st ids :
  parse_lines (l1 ++ l2) st ids =
  match parse_lines l1 st ids with
  | (st1, Ok ids1) => parse_lines l2 st1 ids1
  | (st1, Raise e) => (st1, Raise e)
  end.
Proof.
  revert st ids. induction l1 as [|l l1 IH]; intros st ids; simpl; [done|].
  destruct (process_line l st ids) as [[st' ids']|e]; [apply IH | done].
Qed.

Lemma parse_lines_cons_Ok l ls st ids stF idsF :
  parse_lines (l :: ls) st ids = (stF, Ok idsF) ->
  exists st' ids',
    process_line l st ids = Ok (st', ids')
    /\ parse_lines ls st' ids' = (stF, Ok idsF).
Proof.
  simpl. destruct (process_line l st ids) as [[st' ids']|e]; [|done].
  intros H. by exists st', ids'.
Qed.

Lemma parse_lines_app_Ok l1 l2 st ids stF idsF :
  parse_lines (l1 ++ l2) st ids = (stF, Ok idsF) ->
  exists st1 ids1,
    parse_lines l1 st ids = (st1, Ok ids1)
    /\ parse_lines l2 st1 ids1 = (stF, Ok idsF).
Proof.
  rewrite parse_lines_app.
  destruct (parse_lines l1 st ids) as [st1 [ids1|e]]; [|done].
  intros H. by exists st1, ids1.
Qed.

(** *** One record *)

Lemma process_record_effect obj st ids r :
  process_record obj st ids = Ok r -> record_effect obj st ids r.
Proof.
  unfold process_record. intros H.
  step_bind H. destruct (truthy a) eqn:Ha; simpl in H.
  2:{ injection H as <-. by eapply effect_skip. }
  step_bind H. step_bind H. destruct (truthy a0) eqn:Hr; simpl in H.
  - do 6 step_bind H. injection H as <-. by eapply effect_response.
  - step_bind H. injection H as <-. by eapply effect_no_response.
Qed.

Lemma record_effect_process obj st ids r :
  record_effect obj st ids r -> process_record obj st ids = Ok r.
Proof.
  unfold process_record.
  destruct 1 as [cid Hc Ht|cid k resp err Hc Ht Hk Hr Hf He
                |cid k resp code body0 details seg Hc Ht Hk Hr Hf Hs Hb Hd Hx].
  - rewrite Hc. simpl. by rewrite Ht.
  - rewrite Hc. simpl. rewrite Ht, Hr. simpl. rewrite He. simpl.
    rewrite Hf. simpl. by rewrite Hk.
  - rewrite Hc. simpl. rewrite Ht, Hr. simpl.
    assert (exists err, get obj "error" JNull = Ok err) as [err ->].
    { destruct obj; try discriminate Hc. by eexists. }
    simpl. rewrite Hf. simpl. rewrite Hs. simpl. rewrite Hb. simpl.
    assert (exists v, get (or_else body0 (JObj [])) "status" JNull = Ok v)
      as [v ->].
    { destruct (or_else body0 (JObj [])); try discriminate Hd. by eexists. }
    simpl. rewrite Hd. simpl. rewrite Hx. simpl. by rewrite Hk.
Qed.

(** *** The two updates of the store *)

Lemma mark_no_response_texts k err st ids :
  combined_text_by_id (mark_no_response k err st ids).1
  = combined_text_by_id st.
Proof. done. Qed.

Lemma mark_no_response_state k err st ids :
  example_state_by_id (mark_no_response k err st ids).1 !! k
  = Some (no_response_state err).
Proof. simpl. apply lookup_insert_eq. Qed.

Lemma mark_no_response_other k k' err st ids :
  k <> k' ->
  example_state_by_id (mark_no_response k err st ids).1 !! k'
  = example_state_by_id st !! k'.
Proof. intros. simpl. by apply lookup_insert_ne. Qed.

Lemma mark_no_response_ids k err st ids :
  (mark_no_response k err st ids).2 = ids ++ [k].
Proof. done. Qed.

Lemma absorb_segment_text k code details seg st ids :
  combined_text_by_id (absorb_segment k code details seg st ids).1 !! k
  = Some (append_segment (default [] (combined_text_by_id st !! k)) seg).
Proof.
  unfold absorb_segment. destruct (has_all_markers _); simpl;
    apply lookup_insert_eq.
Qed.

Lemma absorb_segment_text_other k k' code details seg st ids :
  k <> k' ->
  combined_text_by_id (absorb_segment k code details seg st ids).1 !! k'
  = combined_text_by_id st !! k'.
Proof.
  intros. unfold absorb_segment. destruct (has_all_markers _); simpl;
    by apply lookup_insert_ne.
Qed.

Lemma absorb_segment_state k code details seg st ids :
  let combined :=
    append_segment (default [] (combined_text_by_id st !! k)) seg in
  example_state_by_id (absorb_segment k code details seg st ids).1 !! k
  = Some {| completed := has_all_markers combined;
            incomplete_reason :=
              if has_all_markers combined then JNull
              else or_else details markers_missing;
            status_code := code |}.
Proof.
  unfold absorb_segment. simpl. destruct (has_all_markers _); simpl;
    apply lookup_insert_eq.
Qed.

Lemma absorb_segment_state_other k k' code details seg st ids :
  k <> k' ->
  example_state_by_id (absorb_segment k code details seg st ids).1 !! k'
  = example_state_by_id st !! k'.
Proof.
  intros. unfold absorb_segment. destruct (has_all_markers _); simpl;
    by apply lookup_insert_ne.
Qed.

Lemma absorb_segment_ids k code details seg st ids :
  let combined :=
    append_segment (default [] (combined_text_by_id st !! k)) seg in
  (absorb_segment k code details seg st ids).2
  = if has_all_markers combined then ids else ids ++ [k].
Proof. unfold absorb_segment. simpl. by destruct (has_all_markers _). Qed.

(** The list of incomplete ids only grows. *)
Lemma record_effect_ids obj st ids r :
  record_effect obj st ids r -> ids `prefix_of` r.2.
Proof.
  destruct 1; simpl; [done | by apply prefix_app_r |].
  rewrite absorb_segment_ids. destruct (has_all_markers _);
    [done | by apply prefix_app_r].
Qed.

Lemma process_line_ids l st ids st' ids' :
  process_line l st ids = Ok (st', ids') -> ids `prefix_of` ids'.
Proof.
  destruct l; simpl; [by intros [= _ ->] | done |].
  intros H%process_record_effect. by apply record_effect_ids in H.
Qed.

Lemma parse_lines_ids ls st ids st' ids' :
  parse_lines ls st ids = (st', Ok ids') -> ids `prefix_of` ids'.
Proof.
  revert st ids. induction ls as [|l ls IH]; intros st ids; simpl.
  - by intros [= _ ->].
  - destruct (process_line l st ids) as [[st1 ids1]|e] eqn:E; [|done].
    intros H. etrans; [by eapply process_line_ids | by eapply IH].
Qed.

Lemma has_all_markers_occur (t : str) :
  has_all_markers t = true <-> all_markers_occur t.
Proof.
  unfold has_all_markers, all_markers_occur. rewrite !andb_true_iff, !contains_occurs. tauto.
Qed.

(** *** Records of the documented shape are processed without an exception *)

Lemma get_field f k dflt : get (JObj f) k dflt = Ok (field f k dflt).
Proof. done. Qed.

Lemma text_value_ok f :
  text_ok (field f "text" JNull) = true ->
  exists s, text_value (JObj f) = Ok (JStr s).
Proof.
  unfold text_value. rewrite get_field. simpl.
  destruct (field f "text" JNull) as [| | |s| |g] eqn:E; simpl;
    try by (intros _; eexists).
  destruct (or_else _ _) eqn:E'; try done. intros _. by eexists.
Qed.

Lemma item_chunks_ok item chunks :
  item_ok item = true -> all_str chunks ->
  exists chunks', item_chunks item chunks = Ok chunks' /\ all_str chunks'.
Proof.
  destruct item as [| | | | |f]; try done. simpl. intros Hi Hc.
  unfold item_chunks. rewrite get_field. simpl.
  destruct (is_str _ _); [|by exists chunks].
  destruct (text_value_ok f Hi) as [s ->]. simpl.
  eexists. split; [done|]. destruct s; simpl; [done|].
  apply Forall_app. split; [done|]. apply Forall_singleton. by eexists.
Qed.

Lemma for_each_ok {B} (ok : B -> bool) (f : B -> list json -> result (list json)) :
  (forall x chunks, ok x = true -> all_str chunks ->
     exists chunks', f x chunks = Ok chunks' /\ all_str chunks') ->
  forall l chunks, forallb ok l = true -> all_str chunks ->
     exists chunks', for_each f l chunks = Ok chunks' /\ all_str chunks'.
Proof.
  intros Hf. induction l as [|x l IH]; intros chunks Hl Hc; simpl.
  - by exists chunks.
  - apply andb_true_iff in Hl as [Hx Hl].
    destruct (Hf x chunks Hx Hc) as (c1 & -> & Hc1). simpl. by apply IH.
Qed.

Lemma msg_chunks_ok msg chunks :
  msg_ok msg = true -> all_str chunks ->
  exists chunks', msg_chunks msg chunks = Ok chunks' /\ all_str chunks'.
Proof.
  destruct msg as [| | | | |f]; try done. simpl. intros Hm Hc.
  unfold msg_chunks. rewrite get_field. simpl.
  destruct (field f "content" (JArr [])); try by exists chunks.
  by apply (for_each_ok item_ok item_chunks item_chunks_ok).
Qed.

Lemma chunk_texts_ok chunks :
  all_str chunks -> exists texts, chunk_texts chunks = Ok texts.
Proof.
  induction 1 as [|v chunks [s ->] _ [texts IH]]; simpl; [by eexists|].
  rewrite IH. simpl. by eexists.
Qed.

Lemma extract_output_text_ok body :
  body_ok body = true ->
  exists seg, extract_output_text_from_response_obj body = Ok seg.
Proof.
  destruct body as [| | | | |f]; try done. simpl. intros Hb.
  unfold extract_output_text_from_response_obj. rewrite get_field. simpl.
  destruct (field f "output" (JArr [])); try by eexists.
  destruct (for_each_ok msg_ok msg_chunks msg_chunks_ok items [] Hb)
    as (chunks & -> & Hc); [by apply Forall_nil|]. simpl.
  destruct (chunk_texts_ok chunks Hc) as [texts ->]. simpl. by eexists.
Qed.

Lemma process_record_ok obj st ids :
  record_ok obj = true -> exists r, process_record obj st ids = Ok r.
Proof.
  destruct obj as [| | | | |f]; try done. simpl. intros H.
  unfold process_record. rewrite !get_field. simpl.
  destruct (truthy (field f "custom_id" JNull)); simpl; [|by eexists].
  destruct (as_key (field f "custom_id" JNull)) as [k|] eqn:Hk; [|done].
  destruct (truthy (field f "response" JNull)) eqn:Hr; simpl;
    [|by eexists].
  destruct (field f "response" JNull) as [| | | | |rf]; try done.
  rewrite !get_field. simpl.
  destruct (extract_output_text_ok _ H) as [seg Hseg].
  destruct (or_else (field rf "body" JNull) (JObj [])) as [| | | | |bf] eqn:Hb;
    try done.
  rewrite !get_field. simpl. rewrite Hseg. simpl. by eexists.
Qed.

Lemma parse_lines_ok ls st ids :
  forallb line_ok ls = true ->
  exists st' ids', parse_lines ls st ids = (st', Ok ids').
Proof.
  revert st ids. induction ls as [|l ls IH]; intros st ids; simpl.
  - intros _. by eexists _, _.
  - intros [Hl Hls]%andb_true_iff.
    assert (exists r, process_line l st ids = Ok r) as [[st1 ids1] ->].
    { destruct l; simpl in *; [by eexists | done | by apply process_record_ok]. }
    by apply IH.
Qed.

(** *** [append_segment] on stripped texts *)

Lemma isspace_LF : isspace LF = true.
Proof. reflexivity. Qed.

Lemma strip_fixed_clean (s : str) : strip s = s <-> clean isspace s.
Proof. split; [apply clean_fixed | apply strip_with_clean]. Qed.

Lemma extract_output_text_stripped body seg :
  extract_output_text_from_response_obj body = Ok seg -> strip seg = seg.
Proof.
  unfold extract_output_text_from_response_obj. intros H.
  step_bind H. destruct a; try (injection H as <-; done).
  do 2 step_bind H. injection H as <-. apply strip_with_idem.
Qed.

Lemma append_segment_stripped prev seg :
  strip (append_segment prev seg) = append_segment prev seg.
Proof. apply strip_with_idem. Qed.

Lemma append_segment_first seg :
  strip seg = seg -> append_segment [] seg = seg.
Proof. done. Qed.

Lemma append_segment_empty prev :
  prev <> [] -> strip prev = prev -> append_segment prev [] = prev.
Proof.
  intros Hne Hp%strip_fixed_clean. unfold append_segment.
  destruct prev as [|c prev]; [done|].
  rewrite app_nil_r. by apply strip_with_app_sep.
Qed.

Lemma append_segment_both prev seg :
  prev <> [] -> seg <> [] -> strip prev = prev -> strip seg = seg ->
  append_segment prev seg = prev ++ NL ++ seg.
Proof.
  intros Hp Hs Hp'%strip_fixed_clean Hs'%strip_fixed_clean.
  unfold append_segment. destruct prev as [|c prev]; [done|].
  apply strip_with_clean. by apply clean_app.
Qed.

(** The three cases together. *)
Lemma append_segment_cases prev seg :
  strip prev = prev -> strip seg = seg ->
  append_segment prev seg =
  match prev, seg with
  | [], _ => seg
  | _ :: _, [] => prev
  | _ :: _, _ :: _ => prev ++ NL ++ seg
  end.
Proof.
  intros Hp Hs. destruct prev as [|c prev]; [done|].
  destruct seg as [|d seg].
  - by apply append_segment_empty.
  - by apply append_segment_both.
Qed.

Lemma append_segment_prefix prev seg :
  strip prev = prev -> strip seg = seg ->
  prev `prefix_of` append_segment prev seg.
Proof.
  intros Hp Hs. rewrite (append_segment_cases _ _ Hp Hs).
  destruct prev; [apply prefix_nil|]. destruct seg; [done|].
  by apply prefix_app_r.
Qed.

Lemma has_all_markers_app (a b : str) :
  has_all_markers a = true -> has_all_markers (a ++ b) = true.
Proof.
  unfold has_all_markers. rewrite !andb_true_iff.
  intros [[[H1 H2] H3] H4]. repeat split; by apply contains_app.
Qed.

Lemma has_all_markers_prefix (a b : str) :
  a `prefix_of` b -> has_all_markers a = true -> has_all_markers b = true.
Proof. intros [k ->]. apply has_all_markers_app. Qed.

(** *** The invariant of the two dictionaries *)

Lemma invariant_empty : invariant empty_store.
Proof.
  split.
  - intros k t H. simpl in H. by rewrite lookup_empty in H.
  - intros k (e & H & _). simpl in H. by rewrite lookup_empty in H.
Qed.

Lemma text_of_stripped st k : texts_stripped st -> strip (text_of st k) = text_of st k.
Proof.
  intros H. unfold text_of.
  destruct (combined_text_by_id st !! k) as [t|] eqn:E; [by eapply H | done].
Qed.

Lemma text_of_absorb k k' code details seg st ids :
  text_of (absorb_segment k code details seg st ids).1 k' =
  if decide (k = k') then append_segment (text_of st k) seg
  else text_of st k'.
Proof.
  unfold text_of at 1. destruct (decide (k = k')) as [<-|Hne].
  - by rewrite absorb_segment_text.
  - by rewrite absorb_segment_text_other.
Qed.

Lemma record_effect_prefix obj st ids r k :
  texts_stripped st -> record_effect obj st ids r ->
  text_of st k `prefix_of` text_of r.1 k.
Proof.
  intros Hst. destruct 1 as [| |cid k0 resp code body0 details seg
                              _ _ _ _ _ _ _ _ Hseg]; [done..|].
  rewrite text_of_absorb. destruct (decide (k0 = k)) as [->|]; [|done].
  apply append_segment_prefix; [by apply text_of_stripped|].
  by eapply extract_output_text_stripped.
Qed.

Lemma record_effect_invariant obj st ids r :
  invariant st -> record_effect obj st ids r -> invariant r.1.
Proof.
  intros [Hs Hc]. destruct 1 as [|cid k0 resp err|cid k0 resp code body0 details seg];
    [done| |].
  - split; [done|]. intros k (e & He & Hdone).
    destruct (decide (k0 = k)) as [->|Hne].
    + rewrite mark_no_response_state in He. by injection He as <-.
    + rewrite mark_no_response_other in He by done.
      apply Hc. by exists e.
  - split.
    + intros k t. destruct (decide (k0 = k)) as [->|Hne].
      * rewrite absorb_segment_text. intros [= <-].
        apply append_segment_stripped.
      * rewrite absorb_segment_text_other by done. apply Hs.
    + intros k (e & He & Hdone). rewrite text_of_absorb.
      destruct (decide (k0 = k)) as [->|Hne].
      * rewrite absorb_segment_state in He. injection He as <-.
        exact Hdone.
      * rewrite absorb_segment_state_other in He by done.
        apply Hc. by exists e.
Qed.

Lemma process_line_invariant l st ids st' ids' :
  invariant st -> process_line l st ids = Ok (st', ids') -> invariant st'.
Proof.
  intros Hst. destruct l; simpl; [by intros [= <- _] | done |].
  intros H%process_record_effect.
  by apply (record_effect_invariant _ _ _ _ Hst H).
Qed.

Lemma process_line_prefix l st ids st' ids' k :
  invariant st -> process_line l st ids = Ok (st', ids') ->
  text_of st k `prefix_of` text_of st' k.
Proof.
  intros [Hst _]. destruct l; simpl; [by intros [= <- _] | done |].
  intros H%process_record_effect.
  by apply (record_effect_prefix _ _ _ _ k Hst H).
Qed.

Lemma parse_lines_invariant ls st ids :
  invariant st -> invariant (parse_lines ls st ids).1.
Proof.
  revert st ids. induction ls as [|l ls IH]; intros st ids Hst; simpl;
    [done|].
  destruct (process_line l st ids) as [[st' ids']|e] eqn:E; [|done].
  apply IH. by eapply process_line_invariant.
Qed.

Lemma record_effect_texts_stripped obj st ids r :
  texts_stripped st -> record_effect obj st ids r -> texts_stripped r.1.
Proof.
  intros Hs. destruct 1 as [| |cid k0 resp code body0 details seg];
    [done..|].
  intros k t. destruct (decide (k0 = k)) as [->|Hne].
  - rewrite absorb_segment_text. intros [= <-]. apply append_segment_stripped.
  - rewrite absorb_segment_text_other by done. apply Hs.
Qed.

Lemma parse_lines_texts_stripped ls st ids :
  texts_stripped st -> texts_stripped (parse_lines ls st ids).1.
Proof.
  revert st ids. induction ls as [|l ls IH]; intros st ids Hst; simpl;
    [done|].
  destruct (process_line l st ids) as [[st' ids']|e] eqn:E; [|done].
  apply IH. destruct l as [| |obj]; simpl in E.
  - by injection E as <- _.
  - done.
  - apply process_record_effect in E.
    by apply (record_effect_texts_stripped _ _ _ _ Hst E).
Qed.

Lemma parse_lines_prefix ls st ids k :
  invariant st ->
  text_of st k `prefix_of` text_of (parse_lines ls st ids).1 k.
Proof.
  revert st ids. induction ls as [|l ls IH]; intros st ids Hst; simpl;
    [done|].
  destruct (process_line l st ids) as [[st' ids']|e] eqn:E; [|done].
  etrans; [by eapply process_line_prefix|].
  apply IH. by eapply process_line_invariant.
Qed.

Lemma replay_snoc files results :
  replay (files ++ [results])
  = (parse_round_results results (replay files)).1.
Proof. unfold replay. by rewrite fold_left_app. Qed.

Lemma replay_invariant files : invariant (replay files).
Proof.
  induction files as [|results files IH] using rev_ind.
  - apply invariant_empty.
  - rewrite replay_snoc. by apply parse_lines_invariant.
Qed.

End BatchFacts.

(** ** The claims about [parse_round_results] *)

Module ParseRoundResults.
Import Py Json Batch PyFacts BatchFacts Scenarios.

Lemma record_key_effect obj st ids r k :
  record_key obj = Some k -> record_effect obj st ids r ->
  (has_response obj = false
   /\ r = mark_no_response k (record_error obj) st ids)
  \/ (has_response obj = true
      /\ exists seg,
           extract_output_text_from_response_obj (response_body obj) = Ok seg
           /\ r = absorb_segment k (response_code obj) (response_details obj)
                    seg st ids).
Proof.
  unfold record_key, has_response, record_error, response_code,
    response_details, response_body, record_response.
  intros Hkey.
  destruct 1 as [cid Hc Ht|cid k0 resp err Hc Ht Hk Hr Hf He
                |cid k0 resp code body0 details seg Hc Ht Hk Hr Hf Hs Hb Hd Hx];
    rewrite Hc, Ht in Hkey; [done| |]; rewrite Hk in Hkey;
    injection Hkey as ->; rewrite Hr.
  - left. by rewrite Hf, He.
  - right. rewrite Hf, Hs, Hb, Hd. split; [done|]. by exists seg.
Qed.

(** C1, as the code has it.  Take a results file whose lines are blank or
    records of the documented shape, and in it a record with a usable
    [custom_id].  Then [parse_round_results] returns, and where it
    processes that record:
    if the record carries a response payload (a truthy [response]), the
    text stored for the example is ["\n"]-joined and stripped: the previous
    text, a newline and the extracted text, or the extracted text alone
    when there was no previous text; when the texts stored at the start
    are stripped, as they are in a run, that is the previous text followed
    by a newline and the extracted text, or the previous text itself when
    the extracted text is empty.  The example is marked
    [completed = true] with [incomplete_reason = None] exactly when all
    four markers occur in the accumulated text, and otherwise it is marked
    [completed = false] with the body's [incomplete_details] when that is
    truthy, else [{"reason": "markers_missing"}], and its id is in the
    returned list; if the record carries no response payload, the example
    is marked [completed = false] with [status_code = None] and reason
    ["no_response"], no text is touched, and its id is in the returned
    list. *)
Theorem parse_round_results_marks_each_record
    (pre post : list result_line) (obj : json) (k : pykey) (st0 : store) :
  forallb line_ok (pre ++ Doc obj :: post) = true ->
  record_key obj = Some k ->
  exists stF idsF st ids st' ids',
    parse_round_results (pre ++ Doc obj :: post) st0 = (stF, Ok idsF)
    /\ parse_lines pre st0 [] = (st, Ok ids)
    /\ process_record obj st ids = Ok (st', ids')
    /\ parse_lines post st' ids' = (stF, Ok idsF)
    /\ (has_response obj = true ->
        exists seg e,
          extract_output_text_from_response_obj (response_body obj) = Ok seg
          /\ combined_text_by_id st' !! k
             = Some (strip match text_of st k with
                           | [] => seg
                           | _ :: _ => text_of st k ++ [LF] ++ seg
                           end)
          /\ (texts_stripped st0 ->
              text_of st' k = match text_of st k, seg with
                              | [], _ => seg
                              | _ :: _, [] => text_of st k
                              | _ :: _, _ :: _ => text_of st k ++ [LF] ++ seg
                              end)
          /\ example_state_by_id st' !! k = Some e
          /\ status_code e = response_code obj
          /\ (completed e = true /\ incomplete_reason e = JNull
              <-> all_markers_occur (text_of st' k))
          /\ (~ all_markers_occur (text_of st' k) ->
              completed e = false
              /\ incomplete_reason e
                 = (if truthy (response_details obj) then response_details obj
                    else JObj [(lit "reason", JStr (lit "markers_missing"))])
              /\ k ∈ idsF))
    /\ (has_response obj = false ->
        combined_text_by_id st' = combined_text_by_id st
        /\ example_state_by_id st' !! k
           = Some {| completed := false;
                     incomplete_reason :=
                       JObj [(lit "reason", JStr (lit "no_response"));
                             (lit "error", record_error obj)];
                     status_code := JNull |}
        /\ k ∈ idsF).
Proof.
  intros Hok Hkey.
  destruct (parse_lines_ok _ st0 [] Hok) as (stF & idsF & Hrun).
  destruct (parse_lines_app_Ok _ _ _ _ _ _ Hrun) as (st & ids & Hpre & Hrest).
  destruct (parse_lines_cons_Ok _ _ _ _ _ _ Hrest)
    as (st' & ids' & Hrec & Hpost).
  exists stF, idsF, st, ids, st', ids'. simpl in Hrec.
  repeat (split; [done|]).
  pose proof (parse_lines_ids _ _ _ _ _ Hpost) as [rest Hrest'].
  apply process_record_effect in Hrec.
  destruct (record_key_effect _ _ _ _ _ Hkey Hrec)
    as [[Hno Hr]|[Hyes (seg & Hseg & Hr)]].
  - split; [by rewrite Hno|]. intros _.
    assert (st' = (mark_no_response k (record_error obj) st ids).1
            /\ ids' = (mark_no_response k (record_error obj) st ids).2)
      as [-> ->] by by rewrite <- Hr.
    split; [done|]. split; [apply mark_no_response_state|].
    rewrite Hrest'. simpl. set_solver.
  - split; [|by rewrite Hyes]. intros _.
    set (r := absorb_segment k (response_code obj) (response_details obj)
                seg st ids) in *.
    assert (st' = r.1 /\ ids' = r.2) as [-> ->] by by rewrite <- Hr.
    assert (Htext : text_of r.1 k = append_segment (text_of st k) seg).
    { unfold r. rewrite text_of_absorb. by rewrite decide_True. }
    eexists seg, _. split; [done|].
    split; [unfold r; by rewrite absorb_segment_text|].
    split.
    { intros Hst0. rewrite Htext.
      apply (append_segment_cases (text_of st k) seg).
      - apply text_of_stripped.
        pose proof (parse_lines_texts_stripped pre st0 [] Hst0) as Hst.
        by rewrite Hpre in Hst.
      - by eapply extract_output_text_stripped. }
    split; [apply absorb_segment_state|]. simpl.
    split; [done|]. rewrite Htext, <- has_all_markers_occur.
    fold (text_of st k).
    destruct (has_all_markers (append_segment (text_of st k) seg)) eqn:Hm.
    + split; [done|]. by intros [].
    + split; [split; [by intros [? _] | done]|]. intros _.
      split; [done|]. split; [done|].
      rewrite Hrest'. unfold r. rewrite absorb_segment_ids.
      fold (text_of st k). rewrite Hm. set_solver.
Qed.

Lemma parse_round_results_marks_each_record_witness :
  let results := [Doc MOCK_BATCH_RESULT_COMPLETE;
                  Doc MOCK_BATCH_RESULT_INCOMPLETE_NO_SOL_END;
                  Doc MOCK_BATCH_RESULT_NO_RESPONSE] in
  forallb line_ok results = true
  /\ record_key MOCK_BATCH_RESULT_INCOMPLETE_NO_SOL_END = Some (KStr ID1)
  /\ exists stF idsF,
       parse_round_results results empty_store = (stF, Ok idsF)
       /\ text_of stF (KStr ID1) = strip PARTIAL_TEXT
       /\ idsF = [KStr ID1; KStr ID2].
Proof.
  assert (H1 : forallb line_ok
                 ([Doc MOCK_BATCH_RESULT_COMPLETE]
                  ++ Doc MOCK_BATCH_RESULT_INCOMPLETE_NO_SOL_END
                  :: [Doc MOCK_BATCH_RESULT_NO_RESPONSE]) = true)
    by (vm_compute; reflexivity).
  assert (H2 : record_key MOCK_BATCH_RESULT_INCOMPLETE_NO_SOL_END
               = Some (KStr ID1)) by (vm_compute; reflexivity).
  split; [exact H1|]. split; [exact H2|].
  destruct (parse_round_results_marks_each_record _ _ _ _ empty_store H1 H2)
    as (stF & idsF & st & ids & st' & ids' & Hrun & _).
  exists stF, idsF. split; [exact Hrun|].
  assert (Hrun' : parse_round_results
                    [Doc MOCK_BATCH_RESULT_COMPLETE;
                     Doc MOCK_BATCH_RESULT_INCOMPLETE_NO_SOL_END;
                     Doc MOCK_BATCH_RESULT_NO_RESPONSE] empty_store
                  = (stF, Ok idsF)) by exact Hrun.
  destruct (parse_round_results _ empty_store) as [stC rC] eqn:Hc
    in Hrun'.
  injection Hrun' as <- HrC.
  assert (HstC : stC = (parse_round_results
                          [Doc MOCK_BATCH_RESULT_COMPLETE;
                           Doc MOCK_BATCH_RESULT_INCOMPLETE_NO_SOL_END;
                           Doc MOCK_BATCH_RESULT_NO_RESPONSE] empty_store).1)
    by (by rewrite Hc).
  assert (HidC : rC = (parse_round_results
                         [Doc MOCK_BATCH_RESULT_COMPLETE;
                          Doc MOCK_BATCH_RESULT_INCOMPLETE_NO_SOL_END;
                          Doc MOCK_BATCH_RESULT_NO_RESPONSE] empty_store).2)
    by (by rewrite Hc).
  split.
  - rewrite HstC. vm_compute. reflexivity.
  - rewrite HidC in HrC. vm_compute in HrC. by injection HrC as <-.
Defined.

(** C1 as stated fails where it says "when present".  The body of this
    record has an [incomplete_details], the empty object; the text lacks a
    marker, and the reason recorded is [{"reason": "markers_missing"}], not
    the [incomplete_details] of the body.  ([incomplete_details or {...}]
    keeps the details only when they are truthy.) *)
Lemma empty_incomplete_details_are_replaced :
  let st' := (parse_round_results [Doc EMPTY_DETAILS] empty_store).1 in
  record_key EMPTY_DETAILS = Some (KStr ID1)
  /\ has_response EMPTY_DETAILS = true
  /\ (exists body_fields,
        response_body EMPTY_DETAILS = JObj body_fields
        /\ dict_get body_fields (lit "incomplete_details") = Some (JObj []))
  /\ has_all_markers (text_of st' (KStr ID1)) = false
  /\ incomplete_reason <$> example_state_by_id st' !! KStr ID1
     = Some (JObj [(lit "reason", JStr (lit "markers_missing"))])
  /\ incomplete_reason <$> example_state_by_id st' !! KStr ID1
     <> Some (response_details EMPTY_DETAILS).
Proof.
  split; [by vm_compute|]. split; [by vm_compute|].
  split; [eexists; split; by vm_compute|].
  split; [by vm_compute|]. split; [by vm_compute|].
  vm_compute. discriminate.
Qed.

(** C10.  A record whose [custom_id] is missing or empty (or falsy in any
    other way) changes nothing, whatever else it carries: the loop body
    leaves both dictionaries and the list of incomplete ids as they are, so
    the file parses as it does without that line. *)
Theorem record_without_custom_id_is_ignored
    (pre post : list result_line) (fields : list (str * json)) (st : store) :
  truthy (field fields "custom_id" JNull) = false ->
  (forall st1 ids1,
     process_record (JObj fields) st1 ids1 = Ok (st1, ids1))
  /\ parse_round_results (pre ++ Doc (JObj fields) :: post) st
     = parse_round_results (pre ++ post) st.
Proof.
  intros Hid.
  assert (Hskip : forall st1 ids1,
            process_record (JObj fields) st1 ids1 = Ok (st1, ids1)).
  { intros st1 ids1. unfold process_record. rewrite !get_field.
    unfold mbind, result_bind. by rewrite Hid. }
  split; [done|]. unfold parse_round_results.
  rewrite !parse_lines_app.
  destruct (parse_lines pre st []) as [st1 [ids1|e]]; [|done].
  simpl. by rewrite Hskip.
Qed.

Lemma record_without_custom_id_is_ignored_witness :
  truthy (field [(lit "response", record_response ANONYMOUS_COMPLETE)]
                "custom_id" JNull) = false
  /\ parse_round_results
       ([Doc MOCK_BATCH_RESULT_INCOMPLETE_NO_SOL_END]
        ++ Doc (JObj [(lit "response", record_response ANONYMOUS_COMPLETE)])
        :: [Doc MOCK_BATCH_RESULT_NO_RESPONSE]) empty_store
     = parse_round_results
         ([Doc MOCK_BATCH_RESULT_INCOMPLETE_NO_SOL_END]
          ++ [Doc MOCK_BATCH_RESULT_NO_RESPONSE]) empty_store.
Proof.
  split; [reflexivity|].
  apply (record_without_custom_id_is_ignored
           [Doc MOCK_BATCH_RESULT_INCOMPLETE_NO_SOL_END]
           [Doc MOCK_BATCH_RESULT_NO_RESPONSE]
           [(lit "response", record_response ANONYMOUS_COMPLETE)]
           empty_store).
  reflexivity.
Defined.

(** *** CombinedText across rounds *)

Lemma record_effect_text obj st ids r k seg :
  texts_stripped st ->
  record_key obj = Some k -> has_response obj = true ->
  extract_output_text_from_response_obj (response_body obj) = Ok seg ->
  record_effect obj st ids r ->
  combined_text_by_id r.1 !! k
  = Some match text_of st k, seg with
         | [], _ => seg
         | _ :: _, [] => text_of st k
         | _ :: _, _ :: _ => text_of st k ++ NL ++ seg
         end.
Proof.
  intros Hst Hkey Hresp Hseg Heff.
  destruct (record_key_effect _ _ _ _ _ Hkey Heff)
    as [[Hno _]|[_ (seg' & Hseg' & ->)]]; [congruence|].
  rewrite Hseg in Hseg'. injection Hseg' as <-.
  rewrite absorb_segment_text. fold (text_of st k). f_equal.
  apply append_segment_cases; [by apply text_of_stripped|].
  by eapply extract_output_text_stripped.
Qed.

(** C8, as the code has it.  Take the store after any sequence of results
    files parsed from the empty dictionaries, and a record with a response
    payload for an example, processed in that store.  The text stored
    before is a prefix of the text stored after; with prior text and a
    non-empty new segment the new text is the old one, a newline and the
    segment; an empty segment leaves the text as it was (no newline is
    added); without prior text the new text is the segment.  Whatever is
    parsed later keeps the new text as a prefix. *)
Theorem combined_text_grows
    (files : list (list result_line)) (obj : json) (ids ids' : list pykey)
    (st' : store) (k : pykey) (seg : str) :
  process_record obj (replay files) ids = Ok (st', ids') ->
  record_key obj = Some k ->
  has_response obj = true ->
  extract_output_text_from_response_obj (response_body obj) = Ok seg ->
  let prev := text_of (replay files) k in
  prev `prefix_of` text_of st' k
  /\ text_of st' k = match prev, seg with
                     | [], _ => seg
                     | _ :: _, [] => prev
                     | _ :: _, _ :: _ => prev ++ NL ++ seg
                     end
  /\ forall later,
       text_of st' k `prefix_of` text_of (parse_round_results later st').1 k.
Proof.
  intros Hrec Hkey Hresp Hseg prev.
  pose proof (replay_invariant files) as Hinv.
  apply process_record_effect in Hrec.
  split; [|split].
  - apply (record_effect_prefix _ _ _ _ k (proj1 Hinv) Hrec).
  - pose proof (record_effect_text _ _ _ _ _ _
                  (proj1 Hinv) Hkey Hresp Hseg Hrec) as Ht.
    simpl in Ht. unfold text_of at 1. by rewrite Ht.
  - intros later. apply parse_lines_prefix.
    apply (record_effect_invariant _ _ _ _ Hinv Hrec).
Qed.

Lemma combined_text_grows_witness :
  let st := replay [[Doc MOCK_BATCH_RESULT_INCOMPLETE_NO_SOL_END]] in
  exists st' ids',
    process_record CONTINUATION_WITHOUT_TEXT st [] = Ok (st', ids')
    /\ text_of st (KStr ID1) `prefix_of` text_of st' (KStr ID1).
Proof.
  assert (H : exists r,
            process_record CONTINUATION_WITHOUT_TEXT
              (replay [[Doc MOCK_BATCH_RESULT_INCOMPLETE_NO_SOL_END]]) []
            = Ok r) by (vm_compute; eexists; reflexivity).
  destruct H as [[st' ids'] H]. exists st', ids'. split; [exact H|].
  apply (combined_text_grows _ _ _ _ _ _ [] H); vm_compute; reflexivity.
Defined.

(** C8 as stated fails on an empty segment.  Round 1 leaves the partial
    text of example 1; the round 2 record for it carries a response with no
    output text.  Prior text existed, yet the text after round 2 is not the
    prior text followed by a newline and the (empty) segment: it is the
    prior text, unchanged. *)
Lemma empty_segment_adds_no_newline :
  let st1 := replay [[Doc MOCK_BATCH_RESULT_INCOMPLETE_NO_SOL_END]] in
  let st2 := (parse_round_results [Doc CONTINUATION_WITHOUT_TEXT] st1).1 in
  let seg := [] in
  record_key CONTINUATION_WITHOUT_TEXT = Some (KStr ID1)
  /\ has_response CONTINUATION_WITHOUT_TEXT = true
  /\ extract_output_text_from_response_obj
       (response_body CONTINUATION_WITHOUT_TEXT) = Ok seg
  /\ text_of st1 (KStr ID1) <> []
  /\ text_of st2 (KStr ID1) = text_of st1 (KStr ID1)
  /\ text_of st2 (KStr ID1) <> text_of st1 (KStr ID1) ++ NL ++ seg.
Proof.
  vm_compute. repeat split; discriminate.
Qed.

(** *** Completed examples *)

Lemma record_effect_completed obj st ids r k :
  invariant st -> is_completed st k ->
  (record_key obj = Some k -> has_response obj = true) ->
  record_effect obj st ids r ->
  is_completed r.1 k.
Proof.
  intros Hinv Hdone Hresp Heff.
  destruct (record_key obj) as [k0|] eqn:Hkey.
  - destruct (decide (k0 = k)) as [->|Hne].
    + destruct (record_key_effect _ _ _ _ _ Hkey Heff)
        as [[Hno _]|[_ (seg & Hseg & ->)]].
      { rewrite Hresp in Hno; done. }
      eexists. split; [apply absorb_segment_state|]. simpl.
      fold (text_of st k).
      eapply has_all_markers_prefix; [|by apply (proj2 Hinv)].
      apply append_segment_prefix; [by apply text_of_stripped, Hinv|].
      by eapply extract_output_text_stripped.
    + destruct Hdone as (e & He & Hc).
      destruct (record_key_effect _ _ _ _ _ Hkey Heff)
        as [[_ ->]|[_ (seg & Hseg & ->)]]; exists e; split; try done.
      * by rewrite mark_no_response_other.
      * by rewrite absorb_segment_state_other.
  - destruct Heff as [| cid k0 resp err Hc Ht Hk
                      | cid k0 resp code body0 details seg Hc Ht Hk];
      [done|exfalso..]; unfold record_key in Hkey;
      by rewrite Hc, Ht, Hk in Hkey.
Qed.

(** C9, as the code has it.  Once an example is marked completed, parsing
    a further results file (of the same round or of a later one) leaves it
    completed provided every record of that file for this example carries
    a response payload: its text only grows, so the four markers stay.
    Records for other examples never touch its state. *)
Theorem completed_survives_responses
    (files : list (list result_line)) (results : list result_line) (k : pykey) :
  is_completed (replay files) k ->
  (forall obj, Doc obj ∈ results ->
     record_key obj = Some k -> has_response obj = true) ->
  is_completed (parse_round_results results (replay files)).1 k.
Proof.
  intros Hdone Hresp. unfold parse_round_results.
  pose proof (replay_invariant files) as Hinv.
  generalize (@nil pykey) as ids.
  revert Hdone Hinv Hresp. generalize (replay files) as st.
  induction results as [|l results IH]; intros st Hdone Hinv Hresp ids;
    simpl; [done|].
  destruct (process_line l st ids) as [[st' ids']|e] eqn:E; [|done].
  apply IH.
  - destruct l as [| |obj]; simpl in E; [by injection E as <- _ | done |].
    apply process_record_effect in E.
    apply (record_effect_completed _ _ _ _ _ Hinv Hdone) in E; [done|].
    apply Hresp. set_solver.
  - by eapply process_line_invariant.
  - intros obj Hin. apply Hresp. set_solver.
Qed.

Lemma completed_survives_responses_witness :
  is_completed (replay [[Doc MOCK_BATCH_RESULT_COMPLETE]]) (KStr ID0)
  /\ is_completed
       (parse_round_results [Doc MOCK_BATCH_RESULT_COMPLETE]
          (replay [[Doc MOCK_BATCH_RESULT_COMPLETE]])).1 (KStr ID0).
Proof.
  assert (H : is_completed (replay [[Doc MOCK_BATCH_RESULT_COMPLETE]])
                (KStr ID0)).
  { eexists. split; vm_compute; reflexivity. }
  split; [exact H|].
  apply (completed_survives_responses [[Doc MOCK_BATCH_RESULT_COMPLETE]]
           [Doc MOCK_BATCH_RESULT_COMPLETE] (KStr ID0) H).
  intros obj Hin _. apply list_elem_of_singleton in Hin.
  injection Hin as ->. reflexivity.
Defined.

(** C9 as stated fails.  Example 0 is completed by its round 1 record; a
    later record for the same id without a response payload, in the same
    file or in the file of a later round, marks it [completed = false]
    again and reports it as incomplete. *)
Lemma no_response_resets_completed :
  let st1 := (parse_round_results [Doc MOCK_BATCH_RESULT_COMPLETE]
                empty_store).1 in
  let later := parse_round_results [Doc NO_RESPONSE_FOR_0] st1 in
  let same := parse_round_results
                [Doc MOCK_BATCH_RESULT_COMPLETE; Doc NO_RESPONSE_FOR_0]
                empty_store in
  completed <$> example_state_by_id st1 !! KStr ID0 = Some true
  /\ completed <$> example_state_by_id later.1 !! KStr ID0 = Some false
  /\ later.2 = Ok [KStr ID0]
  /\ completed <$> example_state_by_id same.1 !! KStr ID0 = Some false
  /\ same.2 = Ok [KStr ID0].
Proof.
  vm_compute. repeat split.
Qed.

End ParseRoundResults.

(** ** The claims about [run_example_batch] *)

Module RunExampleBatch.
Import Py Json Batch PyFacts BatchFacts Scenarios.

(** *** [extract_block] *)

Lemma extract_block_between text s e inner :
  between text s e inner -> extract_block text s e = strip inner.
Proof.
  intros (i & j & Hi & Hj & ->). unfold extract_block.
  assert (index text s 0 = Some i) as ->.
  { apply index_first_at. exists i. by rewrite drop_0. }
  assert (index text e (i + length s) = Some (i + length s + j)%nat) as ->.
  { apply index_first_at. by exists j. }
  do 2 f_equal. lia.
Qed.

Lemma extract_block_unmatched text s e :
  unmatched text s e -> extract_block text s e = [].
Proof.
  intros Hun. unfold extract_block.
  destruct (index text s 0) as [i|] eqn:Hi; [|done].
  destruct (index text e (i + length s)) as [j|] eqn:Hj; [|done].
  apply index_first_at in Hi as (i' & -> & Hi). rewrite drop_0 in Hi.
  apply index_first_at in Hj as (j' & -> & Hj). simpl in *.
  destruct (Hun (take j' (drop (i' + length s) text))). by exists i', j'.
Qed.

Lemma unmatched_no_start text s e : ~ occurs s text -> unmatched text s e.
Proof.
  intros Hno inner (i & j & [Hi _] & _). by apply Hno, (occurs_at_occurs _ _ i).
Qed.

Lemma occurs_drop (sub s : str) n : occurs sub (drop n s) -> occurs sub s.
Proof.
  intros (a & b & H). exists (take n s ++ a), b.
  by rewrite <- app_assoc, <- H, take_drop.
Qed.

Lemma unmatched_no_end text s e : ~ occurs e text -> unmatched text s e.
Proof.
  intros Hno inner (i & j & _ & [Hj _] & _).
  by apply Hno, (occurs_drop _ _ (i + length s)), (occurs_at_occurs _ _ j).
Qed.

(** *** The final loop *)

Lemma add_output_lookup st outs cid m :
  strip (text_of st (KStr cid)) <> [] ->
  add_output st outs (cid, m) !! output_key m
  = Some (output_for m (strip (text_of st (KStr cid)))).
Proof.
  unfold add_output, text_of, output_for, output_key. intros Hne.
  destruct (strip _) as [|c t] eqn:E; [done|].
  rewrite lookup_insert_eq. f_equal. f_equal.
  by destruct (extract_block (c :: t) SOLUTION_START SOLUTION_END).
Qed.

Lemma add_output_lookup_other st outs entry key :
  output_key entry.2 <> key -> add_output st outs entry !! key = outs !! key.
Proof.
  destruct entry as [cid m]. unfold add_output, output_key. simpl.
  intros Hne. destruct (strip _); [done|]. by rewrite lookup_insert_ne.
Qed.

Lemma final_outputs_lookup d st cid m :
  specs_wf d -> (cid, m) ∈ d ->
  strip (text_of st (KStr cid)) <> [] ->
  final_outputs d st !! output_key m
  = Some (output_for m (strip (text_of st (KStr cid)))).
Proof.
  unfold final_outputs. generalize (∅ : outputs).
  induction d as [|[c' m'] d IH] using rev_ind; intros outs Hwf Hin Hne.
  - by apply elem_of_nil in Hin.
  - rewrite fold_left_app. cbn [fold_left]. destruct Hwf as [Hnd Hid].
    rewrite map_app in Hnd. apply NoDup_app in Hnd as (Hnd & Hd & _).
    apply elem_of_app in Hin as [Hin|Hin].
    + rewrite add_output_lookup_other.
      * apply IH; [|done..]. split; [done|].
        intros c1 m1 H1. apply Hid. set_solver.
      * simpl. intros Hkey. apply (Hd cid).
        -- apply list_elem_of_fmap. by exists (cid, m).
        -- assert (c' = cid) as ->; [|set_solver].
           rewrite (Hid c' m'), (Hid cid m) by set_solver.
           unfold output_key in Hkey. by injection Hkey as -> -> ->.
    + apply list_elem_of_singleton in Hin. injection Hin as <- <-.
      by apply add_output_lookup.
Qed.

(** *** [spec_by_custom_id] *)

Lemma od_set_keys k v d :
  map fst (od_set k v d) = map fst d \/
  ((k ∉ map fst d) /\ map fst (od_set k v d) = map fst d ++ [k]).
Proof.
  induction d as [|[k' v'] d IH]; simpl.
  - right. split; [apply not_elem_of_nil | done].
  - destruct (decide (k' = k)) as [->|Hne]; simpl; [by left|].
    destruct IH as [->|[Hk ->]]; [by left|]. right.
    split; [|done]. by intros [->|?]%elem_of_cons.
Qed.

Lemma od_set_elem k v d c m :
  (c, m) ∈ od_set k v d -> (c, m) = (k, v) \/ (c, m) ∈ d.
Proof.
  induction d as [|[k' v'] d IH]; simpl.
  - intros ->%list_elem_of_singleton. by left.
  - destruct (decide (k' = k)) as [->|Hne].
    + intros [->|Hin]%elem_of_cons; [by left|].
      right. by apply list_elem_of_further.
    + intros [->|[->|Hin]%IH]%elem_of_cons.
      * right. apply list_elem_of_here.
      * by left.
      * right. by apply list_elem_of_further.
Qed.

Lemma od_set_wf k m d :
  k = custom_id_of (chapter_title m) (section_title m) (ex_index m) ->
  specs_wf d -> specs_wf (od_set k m d).
Proof.
  intros Hk [Hnd Hid]. split.
  - destruct (od_set_keys k m d) as [->|[Hfresh ->]]; [done|].
    apply NoDup_app. split; [done|]. split; [|apply NoDup_singleton].
    intros x Hx ->%list_elem_of_singleton. done.
  - intros c m' [[= -> ->]|Hin]%od_set_elem; [done | by apply Hid].
Qed.

Lemma for_each_invariant {A B} (P : A -> Prop) (f : B -> A -> result A) :
  (forall x a a', P a -> f x a = Ok a' -> P a') ->
  forall l a a', P a -> for_each f l a = Ok a' -> P a'.
Proof.
  intros Hf. induction l as [|x l IH]; intros a a' Ha; simpl.
  - by intros [= <-].
  - intros H. step_bind H. eapply IH; [|done]. by eapply Hf.
Qed.

Lemma add_examples_wf chapter section exs idx d d' :
  specs_wf d -> add_examples chapter section idx exs d = Ok d' -> specs_wf d'.
Proof.
  revert idx d. induction exs as [|ex exs IH]; intros idx d Hd; simpl.
  - by intros [= <-].
  - intros H. do 2 step_bind H. eapply IH; [|done]. by apply od_set_wf.
Qed.

Lemma add_section_wf plans chapter section d d' :
  specs_wf d -> add_section plans chapter section d = Ok d' -> specs_wf d'.
Proof.
  unfold add_section. intros Hd.
  destruct (truthy _); simpl; [|by intros [= <-]].
  intros H. step_bind H. unfold add_plan_examples in H.
  destruct a as [| | |[|]|exs|[|]]; try done; try by injection H as <-.
  by eapply add_examples_wf.
Qed.

Lemma build_specs_wf theme_specs plans d :
  build_specs theme_specs plans = Ok d -> specs_wf d.
Proof.
  unfold build_specs. apply for_each_invariant.
  - intros [chapter sections] a a' Ha. simpl. apply for_each_invariant; [|done].
    intros section b b'. apply add_section_wf.
  - split; [apply NoDup_nil_2 | intros ?? H; by apply elem_of_nil in H].
Qed.

(** *** The rounds *)

Lemma is_fatal_not_completed status :
  is_fatal status = true -> bool_decide (status = lit "completed") = false.
Proof.
  unfold is_fatal. rewrite !orb_true_iff, !bool_decide_eq_true.
  intros [[->| ->]| ->]; by apply bool_decide_eq_false.
Qed.

Lemma poll_fatal before fatal after :
  forallb is_pending before = true -> is_fatal fatal = true ->
  poll (before ++ fatal :: after) = PollFatal.
Proof.
  intros Hb Hf. induction before as [|s before IH]; cbn [app poll].
  - by rewrite (is_fatal_not_completed _ Hf), Hf.
  - cbn [forallb] in Hb. apply andb_true_iff in Hb as [Hs Hb].
    unfold is_pending in Hs. apply andb_true_iff in Hs as [H1 H2].
    apply negb_true_iff in H1, H2. rewrite H1, H2. by apply IH.
Qed.

Lemma run_round_Next d w n s s' :
  run_round d w n s = Next s' -> s'.2 <> [].
Proof.
  unfold run_round. destruct s as [st [|k ids]]; [done|].
  destruct (negb _); [done|].
  destruct (obtain_results w n); try done.
  destruct (parse_round_results a st) as [st' [[|k' ids']|e]]; try done.
  by intros [= <-].
Qed.

Lemma run_rounds_Next d w rounds s s' :
  s.2 <> [] -> run_rounds d w rounds s = Next s' -> s'.2 <> [].
Proof.
  revert s. induction rounds as [|n rounds IH]; intros s Hs; simpl.
  - by intros [= <-].
  - destruct (run_round d w n s) eqn:E; try done.
    apply IH. by eapply run_round_Next.
Qed.

Lemma run_rounds_app d w r1 r2 s :
  run_rounds d w (r1 ++ r2) s =
  match run_rounds d w r1 s with
  | Next s' => run_rounds d w r2 s'
  | other => other
  end.
Proof.
  revert s. induction r1 as [|n r1 IH]; intros s; simpl; [done|].
  by destruct (run_round d w n s).
Qed.

(** C2, as the code has it.  When the round loop has ended (its range is
    exhausted, or it was left by [break]), every example whose stripped
    CombinedText is not empty has an entry in the returned dictionary, with
    its title.  The inquiry is the stripped text between the first inquiry
    start marker and the first inquiry end marker after it, and the empty
    string when there is no such pair.  The solution is the stripped text
    between the solution markers when that text is not blank; it is the
    whole CombinedText in every other case: no such pair of markers (one
    of the two is absent, or the end marker does not follow the start
    marker), or only blank text between them. *)
Theorem run_example_batch_extracts_blocks
    (theme_specs : list (str * list str)) (w : world)
    (plans_by_section : gmap (str * str) json) (max_rounds : Z)
    (d : specs) (st : store) (ids : list pykey) (cid : str) (m : meta) :
  build_specs theme_specs plans_by_section = Ok d ->
  (let ended := run_rounds d w (seq 1 (Z.to_nat max_rounds)) (initial d) in
   ended = Next (st, ids) \/ ended = Break (st, ids)) ->
  (cid, m) ∈ d ->
  let combined := strip (text_of st (KStr cid)) in
  combined <> [] ->
  exists example_outputs o,
    run_example_batch theme_specs w plans_by_section max_rounds
    = Returns example_outputs
    /\ example_outputs !! (chapter_title m, section_title m, ex_index m)
       = Some o
    /\ title o = ex_title m
    /\ (forall inner,
          between combined INQUIRY_START INQUIRY_END inner ->
          inquiry o = strip inner)
    /\ (unmatched combined INQUIRY_START INQUIRY_END -> inquiry o = [])
    /\ (~ occurs INQUIRY_START combined \/ ~ occurs INQUIRY_END combined ->
        inquiry o = [])
    /\ (forall inner,
          between combined SOLUTION_START SOLUTION_END inner ->
          solution o = match strip inner with
                       | [] => combined
                       | b => b
                       end)
    /\ (unmatched combined SOLUTION_START SOLUTION_END ->
        solution o = combined)
    /\ (~ occurs SOLUTION_START combined \/ ~ occurs SOLUTION_END combined ->
        solution o = combined).
Proof.
  intros Hbuild Hended Hin combined Hne.
  exists (final_outputs d st), (output_for m combined).
  split; [|split; [|split; [done|]]].
  - unfold run_example_batch. rewrite Hbuild.
    destruct d as [|entry d]; [by apply elem_of_nil in Hin|].
    by destruct Hended as [-> | ->].
  - apply final_outputs_lookup; [by eapply build_specs_wf | done..].
  - assert (Hun : unmatched combined SOLUTION_START SOLUTION_END ->
                  solution (output_for m combined) = combined).
    { intros H. simpl. by rewrite (extract_block_unmatched _ _ _ H). }
    repeat split.
    + intros inner H. apply (extract_block_between _ _ _ _ H).
    + apply extract_block_unmatched.
    + intros [H|H]; apply extract_block_unmatched;
        [by apply unmatched_no_start | by apply unmatched_no_end].
    + intros inner H. simpl. by rewrite (extract_block_between _ _ _ _ H).
    + done.
    + intros [H|H]; apply Hun;
        [by apply unmatched_no_start | by apply unmatched_no_end].
Qed.

Lemma run_example_batch_extracts_blocks_witness :
  build_specs THEME PLANS = Ok SPECS
  /\ run_rounds SPECS OFFLINE (seq 1 (Z.to_nat 1)) (initial SPECS)
     = Next (ROUND1_STORE, [KStr ID1])
  /\ exists example_outputs o,
       run_example_batch THEME OFFLINE PLANS 1 = Returns example_outputs
       /\ example_outputs !! (CHAPTER, SECTION, 0%nat) = Some o
       /\ title o = TITLE0.
Proof.
  assert (H1 : build_specs THEME PLANS = Ok SPECS)
    by (vm_compute; reflexivity).
  assert (H2 : run_rounds SPECS OFFLINE (seq 1 (Z.to_nat 1)) (initial SPECS)
               = Next (ROUND1_STORE, [KStr ID1]))
    by (vm_compute; reflexivity).
  split; [exact H1|]. split; [exact H2|].
  destruct (run_example_batch_extracts_blocks THEME OFFLINE PLANS 1 SPECS
              ROUND1_STORE [KStr ID1] ID0
              {| chapter_title := CHAPTER; section_title := SECTION;
                 ex_index := 0; ex_title := TITLE0;
                 ex_summary :=
                   jstr "Compute z^2 around the unit circle." |}
              H1 (or_introl H2))
    as (outs & o & Hrun & Hout & Htitle & _).
  - apply list_elem_of_here.
  - vm_compute. discriminate.
  - by exists outs, o.
Defined.

(** C2 as stated fails: the solution falls back to the whole CombinedText
    also when a solution marker is present.  In the run of the test, the
    text of example 1 contains the solution start marker (and no end
    marker), and the solution returned for it is its whole text. *)
Lemma solution_falls_back_although_marker_present :
  let combined := strip (text_of ROUND1_STORE (KStr ID1)) in
  match run_example_batch THEME OFFLINE PLANS 1 with
  | Returns example_outputs =>
      solution <$> example_outputs !! (CHAPTER, SECTION, 1%nat)
      = Some combined
  | _ => False
  end
  /\ combined <> []
  /\ contains SOLUTION_START combined = true
  /\ contains SOLUTION_END combined = false.
Proof.
  vm_compute. repeat split. discriminate.
Qed.

(** C3, as the code has it.  If in some round the job reaches [failed],
    [cancelled] or [expired] before [completed], the call returns the empty
    dictionary: no example has an entry, whatever earlier rounds
    completed. *)
Theorem fatal_batch_status_returns_nothing
    (theme_specs : list (str * list str)) (w : world)
    (plans_by_section : gmap (str * str) json) (max_rounds : Z)
    (d : specs) (n : nat) (s : store * list pykey)
    (submit : nat -> batch_job) (before after : list str) (fatal : str) :
  build_specs theme_specs plans_by_section = Ok d ->
  d <> [] ->
  (1 <= n <= Z.to_nat max_rounds)%nat ->
  run_rounds d w (seq 1 (n - 1)) (initial d) = Next s ->
  forallb (known d) s.2 = true ->
  results_on_disk w n = None ->
  client w = Some submit ->
  job_statuses (submit n) = before ++ fatal :: after ->
  forallb is_pending before = true ->
  is_fatal fatal = true ->
  run_example_batch theme_specs w plans_by_section max_rounds = Returns ∅.
Proof.
  intros Hbuild Hd Hn Hprev Hknown Hdisk Hclient Hjob Hbefore Hfatal.
  unfold run_example_batch. rewrite Hbuild.
  destruct d as [|entry d0]; [done|].
  replace (seq 1 (Z.to_nat max_rounds))
    with (seq 1 (n - 1) ++ n :: seq (S n) (Z.to_nat max_rounds - n)).
  2:{ replace (Z.to_nat max_rounds)
        with ((n - 1) + S (Z.to_nat max_rounds - n))%nat at 2 by lia.
      rewrite seq_app. simpl. do 3 f_equal; lia. }
  rewrite run_rounds_app, Hprev. simpl.
  assert (Hs : s.2 <> []).
  { eapply run_rounds_Next; [|done]. done. }
  unfold run_round. destruct s as [st [|k ids]]; [done|].
  cbn [snd] in Hknown. rewrite Hknown. cbn [negb].
  unfold obtain_results. rewrite Hdisk, Hclient, Hjob.
  by rewrite (poll_fatal _ _ _ Hbefore Hfatal).
Qed.

Lemma fatal_batch_status_returns_nothing_witness :
  run_example_batch THEME FAILING PLANS 3 = Returns ∅.
Proof.
  apply (fatal_batch_status_returns_nothing THEME FAILING PLANS 3 SPECS 2
           (ROUND1_STORE, [KStr ID1]) (fun _ => FAILING_JOB)
           [lit "in_progress"] [] (lit "failed"));
    try (vm_compute; reflexivity).
  - discriminate.
  - simpl. lia.
Defined.

(** C3 as stated fails.  Round 1 completes example 0 and leaves example 1
    incomplete; the job of round 2 fails.  The call then returns the empty
    dictionary, so example 0 has no entry, although the same round 1
    followed by no further round yields one. *)
Lemma failed_round_loses_completed_example :
  completed <$> example_state_by_id ROUND1_STORE !! KStr ID0 = Some true
  /\ match run_example_batch THEME FAILING PLANS 3 with
     | Returns example_outputs =>
         example_outputs !! (CHAPTER, SECTION, 0%nat) = None
     | _ => False
     end
  /\ match run_example_batch THEME OFFLINE PLANS 1 with
     | Returns example_outputs =>
         is_Some (example_outputs !! (CHAPTER, SECTION, 0%nat))
     | _ => False
     end.
Proof.
  vm_compute. repeat split. by eexists.
Qed.

End RunExampleBatch.

(** ** Facts about the LaTeX region tools *)

Module LatexFacts.
Import Py Latex PyFacts.

(** *** Slices *)

Lemma clamp_inside n (i : Z) : 0 <= i <= Z.of_nat n -> clamp n i = Z.to_nat i.
Proof.
  intros Hi. unfold clamp. destruct (Z.ltb_spec i 0); lia.
Qed.

Lemma clamp_nonneg n (i : Z) : 0 <= i -> clamp n i = Nat.min n (Z.to_nat i).
Proof. intros Hi. unfold clamp. destruct (Z.ltb_spec i 0); lia. Qed.

Lemma omap_lookup_seq {A} (l : list A) (a n : nat) :
  omap (fun i => l !! i) (seq a n) = take n (drop a l).
Proof.
  revert a. induction n as [|n IH]; intros a; simpl.
  - by rewrite take_0.
  - rewrite IH. destruct (l !! a) as [x|] eqn:E.
    + by rewrite (drop_S _ _ _ E).
    + apply lookup_ge_None in E. rewrite !drop_ge by lia.
      by rewrite !take_nil.
Qed.

(** The slice [lines[first-1:last]] is the inclusive range of lines
    [first .. last], counted from 1. *)
Lemma slice_lines_between (lines : list str) (first last : Z) :
  1 <= first -> 0 <= last ->
  slice lines (first - 1) last = lines_between lines first last.
Proof.
  intros Hf Hl. unfold slice, lines_between. rewrite omap_lookup_seq.
  rewrite !clamp_nonneg by lia.
  replace (Z.to_nat (first - 1)) with (Z.to_nat first - 1)%nat by lia.
  replace (Z.to_nat last + 1 - Z.to_nat first)%nat
    with (Z.to_nat last - (Z.to_nat first - 1))%nat by lia.
  set (a := (Z.to_nat first - 1)%nat). set (b := Z.to_nat last).
  destruct (le_lt_dec (length lines) a) as [Hge|Hlt].
  - rewrite (Nat.min_l _ a) by lia. rewrite !drop_ge by lia.
    by rewrite !take_nil.
  - rewrite (Nat.min_r _ a) by lia.
    destruct (le_lt_dec b (length lines)) as [Hb|Hb].
    + by rewrite (Nat.min_r _ b) by lia.
    + rewrite (Nat.min_l _ b) by lia.
      rewrite !take_ge; [done | rewrite length_drop; lia..].
Qed.

(** *** The line numbers of the errors *)

Lemma fold_digits_nonneg (s : str) (acc : Z) :
  0 <= acc -> forallb isdigit s = true ->
  0 <= fold_left (fun acc c => 10 * acc + (Z.of_N (code c) - 48)) s acc.
Proof.
  revert acc. induction s as [|c s IH]; intros acc Hacc; simpl; [done|].
  intros [Hc Hs]%andb_true_iff. apply IH; [|done].
  unfold isdigit in Hc. apply andb_true_iff in Hc as [Hc _].
  apply N.leb_le in Hc. lia.
Qed.

Lemma int_of_digits_nonneg (s : str) :
  forallb isdigit s = true -> 0 <= int_of_digits s.
Proof. by apply fold_digits_nonneg. Qed.

Lemma take_while_forallb {A} (p : A -> bool) (l : list A) :
  forallb p (take_while p l) = true.
Proof.
  induction l as [|x l IH]; simpl; [done|].
  destruct (p x) eqn:E; simpl; [by rewrite E | done].
Qed.

Lemma match_line_no_nonneg (l : str) n : match_line_no l = Some n -> 0 <= n.
Proof.
  unfold match_line_no. destruct (startswith _ _); [|done].
  destruct (take_while isdigit (drop 2 l)) as [|c digits] eqn:E; [done|].
  destruct (drop (length (c :: digits)) (drop 2 l)) as [|c' rest]; [done|].
  destruct (isspace c'); [|done]. intros [= <-].
  apply int_of_digits_nonneg. rewrite <- E. apply take_while_forallb.
Qed.

Lemma first_line_no_seq (lines : list str) (a n j : nat) (m : Z) :
  first_line_no lines (seq a n) = Some (j, m) ->
  (a <= j < a + n)%nat
  /\ (exists l, lines !! j = Some l /\ match_line_no l = Some m)
  /\ forall j' l', (a <= j' < j)%nat -> lines !! j' = Some l' ->
       match_line_no l' = None.
Proof.
  revert a. induction n as [|n IH]; intros a; simpl; [done|].
  destruct (lines !! a) as [l|] eqn:El.
  - destruct (match_line_no l) as [m'|] eqn:Em.
    + intros [= <- <-]. split; [lia|]. split; [by exists l|]. lia.
    + intros (Hj & Hl & Hfirst)%IH. split; [lia|]. split; [done|].
      intros j' l' Hj' Hl'. destruct (decide (j' = a)) as [->|Hne].
      * congruence.
      * apply (Hfirst j' l'); [lia | done].
  - intros (Hj & Hl & Hfirst)%IH. split; [lia|]. split; [done|].
    intros j' l' Hj' Hl'. destruct (decide (j' = a)) as [->|Hne].
    + congruence.
    + apply (Hfirst j' l'); [lia | done].
Qed.

Lemma error_at_found lines i l e :
  lines !! i = Some l -> error_at lines i l = Some e ->
  exists j, error_found lines i j e.
Proof.
  intros Hl. unfold error_at.
  destruct (startswith (lit "!") l && ERROR_RE_search l) eqn:Hbang; [|done].
  apply andb_true_iff in Hbang as [Hb Hre].
  destruct (first_line_no lines (lookahead lines i)) as [[j m]|] eqn:Hj;
    [|done].
  intros [= <-]. exists j. unfold lookahead in Hj.
  apply first_line_no_seq in Hj as (Hrange & Hm & Hfirst).
  split; [lia|]. split; [by exists l|]. split; [done|]. split; [|done].
  intros j' l' Hj'. apply Hfirst. lia.
Qed.

Lemma scan_errors_found lines i rest e :
  drop i lines = rest -> e ∈ scan_errors lines i rest ->
  exists i' j, (i <= i')%nat /\ error_found lines i' j e.
Proof.
  revert i. induction rest as [|l rest IH]; intros i Hdrop; simpl.
  - by intros ?%elem_of_nil.
  - assert (Hl : lines !! i = Some l).
    { rewrite <- (Nat.add_0_r i), <- lookup_drop, Hdrop. done. }
    assert (Hrest : drop (S i) lines = rest).
    { by rewrite (drop_S _ _ _ Hl) in Hdrop; injection Hdrop. }
    assert (Hlater : e ∈ scan_errors lines (S i) rest ->
                     exists i' j, (i <= i')%nat /\ error_found lines i' j e).
    { intros (i' & j & Hi & H)%(IH _ Hrest). exists i', j. split; [lia|done]. }
    destruct (error_at lines i l) as [e0|] eqn:E; [|done].
    intros [->|Hin]%elem_of_cons; [|by apply Hlater].
    destruct (error_at_found _ _ _ _ Hl E) as [j Hj]. by exists i, j.
Qed.

Lemma parse_errors_found log_text e :
  e ∈ parse_errors log_text ->
  exists i j, error_found (splitlines log_text) i j e.
Proof.
  unfold parse_errors.
  intros (i & j & _ & H)%(scan_errors_found _ 0); [by exists i, j | done].
Qed.

Lemma parse_errors_line_nonneg log_text e :
  e ∈ parse_errors log_text -> 0 <= line e.
Proof.
  intros (i & j & _ & _ & (l & _ & Hm) & _)%parse_errors_found.
  by eapply match_line_no_nonneg.
Qed.

(** *** The regions *)

Lemma collect_step_regions fs radius acc e r :
  r ∈ (collect_step fs radius acc e).2 ->
  r ∈ acc.2 \/ region_for fs radius e r.
Proof.
  destruct acc as [seen regions]. unfold collect_step.
  destruct (decide _); [by left|].
  destruct (fs _) as [text|] eqn:E; simpl; [|by left].
  intros [Hin| ->%list_elem_of_singleton]%elem_of_app; [by left|].
  right. by exists text.
Qed.

Lemma collect_fold_regions fs radius errs acc r :
  r ∈ (fold_left (collect_step fs radius) errs acc).2 ->
  r ∈ acc.2 \/ exists e, e ∈ errs /\ region_for fs radius e r.
Proof.
  revert acc. induction errs as [|e errs IH]; intros acc; simpl.
  - by left.
  - intros [[Hin|Hr]%collect_step_regions|(e' & He' & Hr)]%IH.
    + by left.
    + right. exists e. split; [apply list_elem_of_here | done].
    + right. exists e'. split; [by apply list_elem_of_further | done].
Qed.

Lemma collect_regions_elem fs log_text radius r :
  r ∈ collect_regions fs log_text radius ->
  exists e, e ∈ parse_errors log_text /\ region_for fs radius e r.
Proof.
  unfold collect_regions.
  intros [Hin|H]%collect_fold_regions; [by apply elem_of_nil in Hin | done].
Qed.

(** *** [findall] *)

Lemma findall_go_skip (skip : nat) (s : str) :
  findall_go skip s = findall_go 0 (drop skip s).
Proof.
  revert skip. induction s as [|c s IH]; intros [|k]; simpl; auto.
Qed.

Lemma match_at_length s m len : match_at s = Some (m, len) -> (1 <= len)%nat.
Proof.
  unfold match_at. destruct (opener s) as [[head rest]|]; [|done].
  destruct (body_match rest); [|done]. intros [= _ <-]. lia.
Qed.

Lemma findall_go_cons c s :
  findall_go 0 (c :: s) =
  match match_at (c :: s) with
  | Some (m, len) => m :: findall_go 0 (drop len (c :: s))
  | None => findall_go 0 s
  end.
Proof.
  simpl. destruct (match_at (c :: s)) as [[m len]|] eqn:E; [|done].
  apply match_at_length in E. rewrite findall_go_skip.
  destruct len as [|len]; [lia|]. simpl. by rewrite Nat.sub_0_r.
Qed.

Lemma startswith_length p s : startswith p s = true -> (length p <= length s)%nat.
Proof. rewrite startswith_prefix. apply prefix_length. Qed.

Lemma startswith_drop p s : startswith p s = true -> s = p ++ drop (length p) s.
Proof.
  rewrite startswith_prefix. intros [k ->]. by rewrite drop_app_length.
Qed.

(** The text that [opener] recognises. *)
Lemma opener_shape s head rest :
  opener s = Some (head, rest) ->
  s = "("%char :: head ++ rest
  /\ (head = lit "./themes/" \/ head = lit "./exams/").
Proof.
  unfold opener.
  destruct (startswith (lit "(./themes/") s) eqn:E1.
  - intros [= <- <-]. split; [|by left]. by apply startswith_drop in E1.
  - destruct (startswith (lit "(./exams/") s) eqn:E2; [|done].
    intros [= <- <-]. split; [|by right]. by apply startswith_drop in E2.
Qed.

Lemma opener_marker head rest :
  head = lit "./themes/" \/ head = lit "./exams/" ->
  opener ("("%char :: head ++ rest) = Some (head, rest).
Proof.
  intros [-> | ->]; unfold opener.
  - change ("("%char :: lit "./themes/" ++ rest) with (lit "(./themes/" ++ rest).
    rewrite startswith_self_app. f_equal.
  - change ("("%char :: lit "./exams/" ++ rest) with (lit "(./exams/" ++ rest).
    rewrite startswith_self_app.
    assert (startswith (lit "(./themes/") (lit "(./exams/" ++ rest) = false) as ->
      by done.
    f_equal.
Qed.

Lemma take_while_app_stop {A} (p : A -> bool) (l k : list A) x :
  p x = false -> forallb p l = true ->
  take_while p (l ++ x :: k) = l.
Proof.
  intros Hx. induction l as [|y l IH]; simpl.
  - by rewrite Hx.
  - intros [-> Hl]%andb_true_iff. by rewrite IH.
Qed.

Lemma take_while_prefix {A} (p : A -> bool) (l : list A) :
  take_while p l `prefix_of` l.
Proof.
  induction l as [|x l IH]; simpl; [done|].
  destruct (p x); [by apply prefix_cons | apply prefix_nil].
Qed.

(** A string with a closing parenthesis splits at the first one. *)
Lemma has_rparen_split (s : str) :
  has_rparen s = true ->
  exists run k, s = run ++ ")"%char :: k /\ forallb not_rparen run = true.
Proof.
  induction s as [|c s IH]; simpl; [done|].
  destruct (not_rparen c) eqn:Hc; simpl.
  - intros (run & k & -> & Hrun)%IH. exists (c :: run), k. simpl.
    by rewrite Hc, Hrun.
  - intros _. exists [], s. split; [|done].
    unfold not_rparen in Hc. apply negb_false_iff, bool_decide_eq_true in Hc.
    by rewrite Hc.
Qed.

Lemma not_rparen_rparen : not_rparen ")"%char = false.
Proof. done. Qed.

Lemma take_while_run run k t :
  forallb not_rparen run = true ->
  take_while not_rparen ((run ++ ")"%char :: k) ++ t) = run.
Proof.
  intros Hrun. rewrite <- app_assoc. simpl.
  by apply take_while_app_stop.
Qed.

Lemma rfind_None (sub s : str) j : rfind sub s = None -> ~ occurs_at sub s j.
Proof.
  revert j. induction s as [|c s IH]; intros j; simpl.
  - destruct sub; [done|]. intros _ (b & Hb & Hlen).
    rewrite drop_nil in Hb. discriminate.
  - destruct (rfind sub s) eqn:E; [done|].
    destruct (startswith sub (c :: s)) eqn:Hs; [done|]. intros _.
    destruct j as [|j].
    + rewrite occurs_at_0. congruence.
    + rewrite occurs_at_S. by apply IH.
Qed.

Lemma rfind_occurs_at (sub s : str) k :
  rfind sub s = Some k ->
  occurs_at sub s k /\ forall j, (k < j)%nat -> ~ occurs_at sub s j.
Proof.
  revert k. induction s as [|c s IH]; intros k; simpl.
  - destruct sub; [|done]. intros [= <-]. split.
    + exists []. split; [done | simpl; lia].
    + intros j Hj (b & _ & Hlen). simpl in Hlen. lia.
  - destruct (rfind sub s) as [k'|] eqn:E.
    + intros [= <-]. destruct (IH k' eq_refl) as [Hocc Hlast]. split.
      * by apply occurs_at_S.
      * intros [|j] Hj; [lia|]. rewrite occurs_at_S. apply Hlast. lia.
    + destruct (startswith sub (c :: s)) eqn:Hs; [|done]. intros [= <-].
      split; [by apply occurs_at_0|].
      intros [|j] Hj; [lia|]. rewrite occurs_at_S. by apply rfind_None.
Qed.

Lemma rfind_last (sub s : str) k :
  occurs_at sub s k -> (forall j, (k < j)%nat -> ~ occurs_at sub s j) ->
  rfind sub s = Some k.
Proof.
  intros Hk Hlast. destruct (rfind sub s) as [k'|] eqn:E.
  - apply rfind_occurs_at in E as [Hk' Hlast']. f_equal.
    destruct (lt_eq_lt_dec k k') as [[Hlt|]|Hlt]; [|done|].
    + destruct (Hlast k' Hlt Hk').
    + destruct (Hlast' k Hlt Hk).
  - destruct (rfind_None _ _ k E Hk).
Qed.

(** *** A match depends on the text up to the next closing parenthesis *)

Lemma opens_app s t : opens s = true -> opens (s ++ t) = true.
Proof.
  unfold opens, opener.
  destruct (startswith (lit "(./themes/") s) eqn:E1.
  - by rewrite (startswith_app _ _ t E1).
  - destruct (startswith (lit "(./exams/") s) eqn:E2; [|done].
    rewrite (startswith_app _ _ t E2). by destruct (startswith _ (s ++ t)).
Qed.

Lemma body_match_bound rest k :
  body_match rest = Some k ->
  (k + length TEX <= length (take_while not_rparen rest))%nat.
Proof.
  unfold body_match. destruct (take_while not_rparen rest) as [|c run]; [done|].
  destruct (rfind TEX run) as [k'|] eqn:E; [|done]. intros [= <-].
  apply rfind_occurs_at in E as [(b & Hb & Hlen) _].
  apply (f_equal length) in Hb. rewrite length_drop, length_app in Hb.
  simpl in *. lia.
Qed.

Lemma match_at_app s t :
  opens s = true -> has_rparen s = true ->
  match_at (s ++ t) = match_at s
  /\ forall m len, match_at s = Some (m, len) -> (len < length s)%nat.
Proof.
  intros Ho Hr. unfold opens in Ho.
  destruct (opener s) as [[head rest]|] eqn:E; [|done].
  apply opener_shape in E as [-> Hhead].
  assert (Hrest : has_rparen rest = true).
  { unfold has_rparen in *. change ("("%char :: head ++ rest)
      with (("("%char :: head) ++ rest) in Hr.
    rewrite existsb_app in Hr. apply orb_true_iff in Hr as [Hr|Hr]; [|done].
    by destruct Hhead as [-> | ->]. }
  apply has_rparen_split in Hrest as (run & k & -> & Hrun).
  unfold match_at.
  change (("("%char :: head ++ run ++ ")"%char :: k) ++ t)
    with ("("%char :: (head ++ run ++ ")"%char :: k) ++ t).
  rewrite <- (app_assoc head _ t).
  rewrite !(opener_marker head) by done.
  assert (Hb : body_match ((run ++ ")"%char :: k) ++ t)
               = body_match (run ++ ")"%char :: k)).
  { unfold body_match. rewrite take_while_run by done.
    by rewrite (take_while_app_stop _ run k ")"%char). }
  rewrite Hb. split.
  - destruct (body_match (run ++ ")"%char :: k)) as [n|] eqn:En; [|done].
    apply body_match_bound in En.
    rewrite (take_while_app_stop _ run k ")"%char) in En by done.
    assert (Hn : (n <= length (run ++ ")"%char :: k))%nat).
    { rewrite length_app. lia. }
    by rewrite (take_app_le _ _ _ Hn).
  - intros m len. destruct (body_match (run ++ ")"%char :: k)) as [n|] eqn:En;
      [|done].
    apply body_match_bound in En.
    rewrite (take_while_app_stop _ run k ")"%char) in En by done.
    intros [= _ <-]. change (length TEX) with 4%nat in *.
    cbn [length]. rewrite !length_app. cbn [length]. lia.
Qed.

Lemma startswith_app_inv (h b t : str) :
  startswith h (b ++ t) = true ->
  startswith h b = true
  \/ exists h2, h2 <> [] /\ h = b ++ h2 /\ startswith h2 t = true.
Proof.
  revert h. induction b as [|c b IH]; intros h; simpl.
  - destruct h as [|a h]; [by left|]. intros H. right. by exists (a :: h).
  - destruct h as [|a h]; [by left|]. simpl.
    destruct (decide (a = c)) as [->|]; [|done].
    intros [H|(h2 & Hne & -> & H)]%IH; [by left|]. right. by exists h2.
Qed.

Lemma header_straddle (header b t : str) :
  existsb is_lparen (tail header) = false ->
  b <> [] -> at_lparen t ->
  startswith header (b ++ t) = true -> startswith header b = true.
Proof.
  intros Hh Hb Ht [H|(h2 & Hne & -> & H)]%startswith_app_inv; [done|].
  exfalso. destruct Ht as [->|[t' ->]].
  - by destruct h2.
  - destruct h2 as [|a h2]; [done|]. simpl in H.
    destruct (decide (a = "("%char)) as [->|]; [|done].
    destruct b as [|c b]; [done|]. simpl in Hh.
    rewrite existsb_app in Hh. simpl in Hh.
    by rewrite orb_true_r in Hh.
Qed.

Lemma opens_app_inv b t :
  b <> [] -> at_lparen t -> opens (b ++ t) = opens b.
Proof.
  intros Hb Ht. destruct (opens b) eqn:E; [by apply opens_app|].
  unfold opens, opener in *.
  destruct (startswith (lit "(./themes/") (b ++ t)) eqn:E1.
  { apply header_straddle in E1; [|done..]. by rewrite E1 in E. }
  destruct (startswith (lit "(./exams/") (b ++ t)) eqn:E2; [|done].
  apply header_straddle in E2; [|done..].
  rewrite E2 in E. by destruct (startswith (lit "(./themes/") b).
Qed.

Lemma match_at_not_opens s : opens s = false -> match_at s = None.
Proof. unfold opens, match_at. by destruct (opener s) as [[??]|]. Qed.

Lemma closed_drop n s : closed s = true -> closed (drop n s) = true.
Proof.
  revert s. induction n as [|n IH]; intros s; [by rewrite drop_0|].
  destruct s as [|c s]; [done|]. simpl.
  intros [_ H]%andb_true_iff. by apply IH.
Qed.

Lemma closed_cons c s :
  closed (c :: s) = true ->
  (opens (c :: s) = true -> has_rparen (c :: s) = true) /\ closed s = true.
Proof.
  cbn [closed]. intros [H1 H2]%andb_true_iff. split; [|done].
  intros Ho. by rewrite Ho in H1.
Qed.

Lemma findall_closed_app (pre t : str) :
  closed pre = true -> at_lparen t ->
  findall (pre ++ t) = findall pre ++ findall t.
Proof.
  unfold findall. intros Hc Ht.
  remember (length pre) as n eqn:Hn. revert pre Hn Hc.
  induction n as [n IH] using lt_wf_ind. intros pre Hn Hc.
  destruct pre as [|c pre]; [done|].
  pose proof (closed_cons _ _ Hc) as [Hopen Hc'].
  cbn [length] in Hn.
  change ((c :: pre) ++ t) with (c :: pre ++ t).
  rewrite !findall_go_cons.
  change (c :: pre ++ t) with ((c :: pre) ++ t).
  destruct (opens (c :: pre)) eqn:Eo.
  - destruct (match_at_app (c :: pre) t Eo (Hopen eq_refl)) as [Hm Hlen].
    rewrite Hm.
    destruct (match_at (c :: pre)) as [[m len]|] eqn:Em.
    + specialize (Hlen m len eq_refl).
      rewrite drop_app_le by lia. rewrite <- app_comm_cons. f_equal.
      apply (IH (length (drop len (c :: pre)))); [|done|].
      * pose proof (match_at_length _ _ _ Em).
        rewrite length_drop. cbn [length] in *. lia.
      * by apply closed_drop.
    + apply (IH (length pre)); [lia | done..].
  - rewrite (match_at_not_opens (c :: pre) Eo).
    rewrite match_at_not_opens by by rewrite opens_app_inv.
    apply (IH (length pre)); [lia | done..].
Qed.

(** *** Text without [.tex], or without a file-open head, has no match *)

Lemma occurs_prefix (sub a b : str) : a `prefix_of` b -> occurs sub a -> occurs sub b.
Proof.
  intros [k ->] (x & y & ->). exists x, (y ++ k). by rewrite <- !app_assoc.
Qed.

Lemma occurs_cons (sub : str) c s : occurs sub s -> occurs sub (c :: s).
Proof. intros (x & y & ->). by exists (c :: x), y. Qed.

Lemma occurs_app_r (sub a b : str) : occurs sub b -> occurs sub (a ++ b).
Proof. intros (x & y & ->). exists (a ++ x), y. by rewrite <- app_assoc. Qed.

Lemma match_at_occurs s m len : match_at s = Some (m, len) -> occurs TEX s.
Proof.
  unfold match_at. destruct (opener s) as [[head rest]|] eqn:E; [|done].
  destruct (body_match rest) as [k|] eqn:Ek; [|done]. intros _.
  apply opener_shape in E as [-> _].
  apply occurs_cons, occurs_app_r.
  unfold body_match in Ek.
  pose proof (take_while_prefix not_rparen rest) as Hp.
  destruct (take_while not_rparen rest) as [|c run]; [done|].
  destruct (rfind TEX run) as [k'|] eqn:Er; [|done].
  apply rfind_occurs_at in Er as [Hocc _].
  eapply occurs_prefix; [done|].
  by apply occurs_cons, (occurs_at_occurs _ _ k').
Qed.

Lemma findall_go_no_tex skip s : contains TEX s = false -> findall_go skip s = [].
Proof.
  revert skip. induction s as [|c s IH]; intros skip Hs; [done|].
  assert (Hs' : contains TEX s = false).
  { destruct (contains TEX s) eqn:E; [|done].
    apply contains_occurs, (occurs_cons _ c), contains_occurs in E.
    congruence. }
  destruct skip as [|k]; [|by apply IH].
  rewrite findall_go_cons.
  destruct (match_at (c :: s)) as [[m len]|] eqn:E; [|by apply IH].
  apply match_at_occurs, contains_occurs in E. congruence.
Qed.

Lemma findall_go_no_opener skip s : no_opener s = true -> findall_go skip s = [].
Proof.
  revert skip. induction s as [|c s IH]; intros skip; [done|].
  cbn [no_opener]. intros [Ho Hs]%andb_true_iff. apply negb_true_iff in Ho.
  destruct skip as [|k]; [|by apply IH].
  rewrite findall_go_cons, (match_at_not_opens _ Ho). by apply IH.
Qed.

(** *** A marker followed by no other [.tex] *)

Lemma occurs_at_app_length (sub a b : str) : occurs_at sub (a ++ sub ++ b) (length a).
Proof.
  exists b. split; [by rewrite drop_app_length | rewrite length_app; lia].
Qed.

Lemma body_match_marker (name post : str) :
  name <> [] -> forallb not_rparen name = true ->
  contains TEX post = false ->
  body_match (name ++ TEX ++ post) = Some (length name).
Proof.
  intros Hne Hname Hpost. unfold body_match.
  set (post1 := take_while not_rparen post).
  assert (Hrun : take_while not_rparen (name ++ TEX ++ post)
                 = name ++ TEX ++ post1).
  { clear Hne. induction name as [|c name IH]; [done|].
    simpl in Hname. apply andb_true_iff in Hname as [Hc Hname].
    simpl. rewrite Hc. f_equal. by apply IH. }
  rewrite Hrun. destruct name as [|c name]; [done|].
  change ((c :: name) ++ TEX ++ post1) with (c :: name ++ TEX ++ post1).
  cbn [length].
  rewrite (rfind_last TEX (name ++ TEX ++ post1) (length name)); [done| |].
  - apply occurs_at_app_length.
  - intros j Hj (b & Hb & Hlen).
    assert (Hpost1 : ~ occurs TEX post1).
    { intros H. apply (occurs_prefix _ _ post) in H;
        [|apply take_while_prefix].
      apply contains_occurs in H. congruence. }
    replace j with (length name + (j - length name))%nat in Hb by lia.
    rewrite <- drop_drop, drop_app_length in Hb.
    destruct (j - length name)%nat as [|[|[|[|i]]]] eqn:Ej; [lia|..];
      try discriminate Hb.
    apply Hpost1. exists (take i post1), b.
    change (drop (S (S (S (S i)))) (TEX ++ post1)) with (drop i post1) in Hb.
    by rewrite <- Hb, take_drop.
Qed.

Lemma findall_marker (head name post : str) :
  head = lit "./themes/" \/ head = lit "./exams/" ->
  name <> [] -> forallb not_rparen name = true ->
  contains TEX post = false ->
  findall ("("%char :: head ++ name ++ TEX ++ post) = [head ++ name ++ TEX].
Proof.
  intros Hhead Hne Hname Hpost. unfold findall. rewrite findall_go_cons.
  unfold match_at. rewrite opener_marker by done.
  rewrite body_match_marker by done.
  rewrite take_app_length. f_equal.
  rewrite findall_go_no_tex; [done|].
  destruct (contains TEX (drop _ _)) eqn:E; [|done].
  apply contains_occurs in E.
  replace (drop (1 + length head + length name + length TEX)
             ("("%char :: head ++ name ++ TEX ++ post)) with post in E.
  - apply contains_occurs in E. congruence.
  - change ("("%char :: head ++ name ++ TEX ++ post)
      with (("("%char :: head) ++ name ++ TEX ++ post).
    rewrite !app_assoc. rewrite drop_app_length'; [done|].
    rewrite !length_app. simpl. lia.
Qed.

Lemma guess_file_no_opener chunk :
  no_opener chunk = true -> guess_file chunk = lit "main.tex".
Proof.
  intros H. unfold guess_file, findall. by rewrite findall_go_no_opener.
Qed.

Lemma guess_file_last_marker (pre dir name post : str) :
  dir = lit "themes" \/ dir = lit "exams" ->
  name <> [] -> forallb not_rparen name = true ->
  closed pre = true -> contains TEX post = false ->
  guess_file (pre ++ lit "(./" ++ dir ++ lit "/" ++ name ++ lit ".tex" ++ post)
  = dir ++ lit "/" ++ name ++ lit ".tex".
Proof.
  intros Hdir Hne Hname Hpre Hpost. unfold guess_file.
  set (head := lit "./" ++ dir ++ lit "/").
  assert (Hhead : head = lit "./themes/" \/ head = lit "./exams/").
  { unfold head. destruct Hdir as [-> | ->]; [by left | by right]. }
  replace (lit "(./" ++ dir ++ lit "/" ++ name ++ lit ".tex" ++ post)
    with ("("%char :: head ++ name ++ TEX ++ post).
  2:{ unfold head. simpl. by rewrite <- !app_assoc. }
  rewrite findall_closed_app; [|done|right; by eexists].
  rewrite findall_marker by done. rewrite last_snoc.
  unfold head. simpl. by rewrite <- !app_assoc.
Qed.

End LatexFacts.

(** ** The claims about the region tools *)

Module Regions.
Import Py Latex PyFacts LatexFacts Scenarios.

(** C4.  For a region with [1 <= start_line <= end_line <= line count],
    the spliced file is the lines before the region, the lines of the
    fixer output, and the lines after the region, in this order: every
    line before the region is where it was, every line after it has moved
    by the difference between the two line counts, and nothing else
    changed. *)
Theorem splice_leaves_other_lines_alone (text fixed : str) (r : region) :
  let old := (make_patch_for_region text r fixed).1 in
  let new := (make_patch_for_region text r fixed).2 in
  let block := splitlines fixed in
  let delta :=
    Z.of_nat (length block) - (end_line r - start_line r + 1) in
  1 <= start_line r <= end_line r ->
  end_line r <= Z.of_nat (length old) ->
  old = splitlines text
  /\ new = take (Z.to_nat (start_line r) - 1) old ++ block
           ++ drop (Z.to_nat (end_line r)) old
  /\ (forall n, n < start_line r -> line_at new n = line_at old n)
  /\ (forall k, (k < length block)%nat ->
        line_at new (start_line r + Z.of_nat k) = block !! k)
  /\ (forall n, end_line r < n -> line_at new (n + delta) = line_at old n)
  /\ Z.of_nat (length new) = Z.of_nat (length old) + delta.
Proof.
  intros old new block delta Hrange Hlen.
  unfold make_patch_for_region in old, new. simpl in old, new.
  fold old in new. fold block in new.
  assert (Hnew : new = take (Z.to_nat (start_line r) - 1) old ++ block
                       ++ drop (Z.to_nat (end_line r)) old).
  { unfold new, new_all_lines, slice_assign.
    rewrite !clamp_inside by lia.
    replace (Z.to_nat (start_line r - 1)) with (Z.to_nat (start_line r) - 1)%nat
      by lia.
    by rewrite Nat.max_r by lia. }
  set (a := (Z.to_nat (start_line r) - 1)%nat) in *.
  set (b := Z.to_nat (end_line r)) in *.
  assert (Ha : length (take a old) = a) by (rewrite length_take; lia).
  split; [done|]. split; [done|]. rewrite Hnew. repeat split.
  - intros n Hn. unfold line_at. destruct (Z.ltb_spec n 1); [done|].
    rewrite lookup_app_l by lia. apply lookup_take_lt. lia.
  - intros k Hk. unfold line_at.
    destruct (Z.ltb_spec (start_line r + Z.of_nat k) 1); [lia|].
    replace (Z.to_nat (start_line r + Z.of_nat k - 1)) with (a + k)%nat
      by lia.
    rewrite lookup_app_r by lia. rewrite Ha.
    replace (a + k - a)%nat with k by lia. by apply lookup_app_l.
  - intros n Hn. unfold line_at.
    destruct (Z.ltb_spec (n + delta) 1); [lia|].
    destruct (Z.ltb_spec n 1); [lia|].
    rewrite lookup_app_r by lia. rewrite Ha.
    rewrite lookup_app_r by lia. rewrite lookup_drop. f_equal. lia.
  - rewrite !length_app, length_drop, Ha. lia.
Qed.

Lemma splice_leaves_other_lines_alone_witness :
  let r := region_of (lit "main.tex")
             (text_lines ["line 1"; "line 2"; "bad line 3"; "line 4"; "line 5"])
             3 0 in
  (make_patch_for_region
     (text_lines ["line 1"; "line 2"; "bad line 3"; "line 4"; "line 5"])
     r (text_lines ["good line 3"; "and one more"])).2
  = [lit "line 1"; lit "line 2"; lit "good line 3"; lit "and one more";
     lit "line 4"; lit "line 5"].
Proof.
  intros r.
  destruct (splice_leaves_other_lines_alone
              (text_lines ["line 1"; "line 2"; "bad line 3"; "line 4"; "line 5"])
              (text_lines ["good line 3"; "and one more"]) r)
    as (_ & Hnew & _).
  - vm_compute. split; discriminate.
  - vm_compute. discriminate.
  - rewrite Hnew. vm_compute. reflexivity.
Defined.

(** *** The regions of [collect_regions] *)

Lemma region_for_window fs radius e r :
  0 <= radius -> 0 <= line e -> region_for fs radius e r ->
  exists text,
    fs (file r) = Some text
    /\ error_line r = line e
    /\ start_line r = Z.max 1 (error_line r - radius)
    /\ end_line r = Z.min (Z.of_nat (length (splitlines text)))
                          (error_line r + radius)
    /\ snippet_raw r
       = lines_between (splitlines text) (start_line r) (end_line r).
Proof.
  intros Hr He (text & Hfs & ->). exists text. simpl.
  repeat split; [done|]. apply slice_lines_between; lia.
Qed.

(** Every error whose file exists has its region in the result. *)
Lemma collect_fold_complete fs radius errs acc :
  let covered (a : gset (str * Z) * list region) :=
    forall key text, key ∈ a.1 -> fs key.1 = Some text ->
      region_of key.1 text key.2 radius ∈ a.2 in
  covered acc ->
  covered (fold_left (collect_step fs radius) errs acc)
  /\ forall e, e ∈ errs ->
       (guess_file (context_chunk e), line e)
       ∈ (fold_left (collect_step fs radius) errs acc).1.
Proof.
  intros covered. revert acc.
  assert (Hstep : forall acc e, covered acc ->
            covered (collect_step fs radius acc e)
            /\ (guess_file (context_chunk e), line e)
               ∈ (collect_step fs radius acc e).1
            /\ acc.1 ⊆ (collect_step fs radius acc e).1).
  { intros [seen regions] e Hcov. unfold collect_step.
    destruct (decide _) as [Hseen|Hnew]; [done|].
    destruct (fs (guess_file (context_chunk e))) as [text|] eqn:E.
    - split; [|split; cbn [fst snd]; set_solver].
      intros key t Hk Ht. cbn [fst snd] in *.
      apply elem_of_union in Hk as [->%elem_of_singleton|Hk].
      + cbn [fst snd] in *. rewrite E in Ht. injection Ht as <-.
        apply elem_of_app. right. apply list_elem_of_here.
      + apply elem_of_app. left. by apply Hcov.
    - split; [|split; cbn [fst snd]; set_solver].
      intros key t Hk Ht. cbn [fst snd] in *.
      apply elem_of_union in Hk as [->%elem_of_singleton|Hk].
      + cbn [fst snd] in *. congruence.
      + by apply Hcov. }
  assert (Hmono : forall later acc,
            acc.1 ⊆ (fold_left (collect_step fs radius) later acc).1).
  { induction later as [|e later IH]; intros acc; simpl; [done|].
    etrans; [|apply IH].
    intros key Hk.
    destruct acc as [seen regions]. unfold collect_step.
    destruct (decide _); [done|].
    destruct (fs _); cbn [fst]; apply elem_of_union; by right. }
  induction errs as [|e errs IH]; intros acc Hcov; simpl.
  - split; [done|]. by intros e ?%elem_of_nil.
  - destruct (Hstep acc e Hcov) as (Hcov' & Hin & _).
    destruct (IH _ Hcov') as [Hfinal Hall]. split; [done|].
    intros e' [->|He']%elem_of_cons; [|by apply Hall].
    by apply Hmono.
Qed.

Lemma collect_regions_complete fs log_text radius e text :
  e ∈ parse_errors log_text ->
  fs (guess_file (context_chunk e)) = Some text ->
  region_of (guess_file (context_chunk e)) text (line e) radius
  ∈ collect_regions fs log_text radius.
Proof.
  intros He Hfs. unfold collect_regions.
  destruct (collect_fold_complete fs radius (parse_errors log_text) (∅, []))
    as [Hcov Hall].
  - intros key t Hk. simpl in Hk. set_solver.
  - by apply (Hcov (guess_file (context_chunk e), line e) text (Hall e He)).
Qed.

(** C5, as the code has it.  The raw snippet of every region is exactly
    the lines [start_line .. end_line] of the file as read, counted from 1
    (none when [start_line > end_line]); and
    [start_line <= error_line <= end_line] holds when the error line is a
    line of that file, that is when [1 <= error_line <= line count]. *)
Theorem region_snippet_and_bounds
    (fs : str -> option str) (log_text : str) (radius : Z) (r : region) :
  0 <= radius ->
  r ∈ collect_regions fs log_text radius ->
  exists text,
    fs (file r) = Some text
    /\ snippet_raw r
       = lines_between (splitlines text) (start_line r) (end_line r)
    /\ (1 <= error_line r <= Z.of_nat (length (splitlines text)) ->
        start_line r <= error_line r <= end_line r).
Proof.
  intros Hradius (e & He & Hr)%collect_regions_elem.
  destruct (region_for_window _ _ _ _ Hradius
              (parse_errors_line_nonneg _ _ He) Hr)
    as (text & Hfs & _ & Hstart & Hend & Hsnip).
  exists text. split; [done|]. split; [done|]. lia.
Qed.

Lemma region_snippet_and_bounds_witness :
  exists r text,
    collect_regions ONLY_PDE LOG_SINGLE 3 = [r]
    /\ ONLY_PDE (file r) = Some text
    /\ snippet_raw r
       = lines_between (splitlines text) (start_line r) (end_line r).
Proof.
  assert (H : exists r, collect_regions ONLY_PDE LOG_SINGLE 3 = [r])
    by (vm_compute; eexists; reflexivity).
  destruct H as [r Hr].
  destruct (region_snippet_and_bounds ONLY_PDE LOG_SINGLE 3 r)
    as (text & Hfs & Hsnip & _).
  - lia.
  - rewrite Hr. apply list_elem_of_here.
  - by exists r, text.
Defined.

(** C5 as stated fails.  The log reports an error at line 50 and no file;
    the region is taken from [main.tex], which has three lines.  The region
    has [start_line = 40], [error_line = 50] and [end_line = 3], and an
    empty snippet. *)
Lemma region_beyond_end_of_file :
  map (fun r => (file r, start_line r, error_line r, end_line r,
                 snippet_raw r))
      (collect_regions ONLY_MAIN LOG_LINE_50 10)
  = [(lit "main.tex", 40, 50, 3, [])]
  /\ ~ Forall (fun r => start_line r <= error_line r <= end_line r)
         (collect_regions ONLY_MAIN LOG_LINE_50 10).
Proof.
  split; [vm_compute; reflexivity|].
  assert (H : exists r, collect_regions ONLY_MAIN LOG_LINE_50 10 = [r]
                        /\ error_line r = 50 /\ end_line r = 3)
    by (vm_compute; eexists; repeat split).
  destruct H as (r & -> & He & Hend).
  intros Hall. rewrite Forall_singleton in Hall. lia.
Qed.

(** C6.  With a non-negative radius, every region has
    [start_line = max(1, error_line - radius)] and
    [end_line = min(line count, error_line + radius)], and its snippet is
    the inclusive range of lines between them; every error whose file
    exists has such a region.  In particular, when the log has exactly one
    recognised error, at line 20, the radius is 3 and the file has at
    least 23 lines, the result is exactly one region, with
    [start_line = 17], [end_line = 23] and a snippet of 7 lines whose
    fourth line is line 20 of the file. *)
Theorem collect_regions_context_window
    (fs : str -> option str) (log_text : str) (radius : Z) :
  0 <= radius ->
  (forall r, r ∈ collect_regions fs log_text radius ->
     exists text,
       fs (file r) = Some text
       /\ start_line r = Z.max 1 (error_line r - radius)
       /\ end_line r = Z.min (Z.of_nat (length (splitlines text)))
                             (error_line r + radius)
       /\ snippet_raw r
          = lines_between (splitlines text) (start_line r) (end_line r))
  /\ (forall e text,
        e ∈ parse_errors log_text ->
        fs (guess_file (context_chunk e)) = Some text ->
        exists r, r ∈ collect_regions fs log_text radius
                  /\ file r = guess_file (context_chunk e)
                  /\ error_line r = line e)
  /\ (forall e text,
        radius = 3 ->
        parse_errors log_text = [e] ->
        line e = 20 ->
        fs (guess_file (context_chunk e)) = Some text ->
        (23 <= length (splitlines text))%nat ->
        exists r,
          collect_regions fs log_text radius = [r]
          /\ file r = guess_file (context_chunk e)
          /\ error_line r = 20
          /\ start_line r = 17
          /\ end_line r = 23
          /\ length (snippet_raw r) = 7%nat
          /\ snippet_raw r !! 3%nat = line_at (splitlines text) 20).
Proof.
  intros Hradius. split; [|split].
  - intros r (e & He & Hr)%collect_regions_elem.
    destruct (region_for_window _ _ _ _ Hradius
                (parse_errors_line_nonneg _ _ He) Hr)
      as (text & Hfs & _ & Hstart & Hend & Hsnip).
    by exists text.
  - intros e text He Hfs. eexists. split.
    + by apply (collect_regions_complete _ _ radius _ _ He Hfs).
    + done.
  - intros e text -> Herrs Hline Hfs Hlen.
    exists (region_of (guess_file (context_chunk e)) text 20 3).
    unfold collect_regions. rewrite Herrs. cbn [fold_left].
    unfold collect_step.
    rewrite decide_False by set_solver. rewrite Hfs, Hline. cbn [snd app].
    split; [done|]. split; [done|]. split; [done|].
    unfold region_of. cbn [start_line end_line snippet_raw].
    change (Z.max 1 (20 - 3)) with 17. change (20 + 3) with 23.
    assert (Hend : Z.min (Z.of_nat (length (splitlines text))) 23 = 23)
      by lia.
    rewrite Hend. split; [done|]. split; [done|].
    rewrite slice_lines_between by lia. unfold lines_between, line_at.
    rewrite omap_lookup_seq.
    change (Z.to_nat 23 + 1 - Z.to_nat 17)%nat with 7%nat.
    change (Z.to_nat 17 - 1)%nat with 16%nat.
    change (Z.to_nat (20 - 1)) with 19%nat. cbn [Z.ltb Z.compare Pos.compare
      Pos.compare_cont].
    split.
    + rewrite length_take, length_drop. lia.
    + rewrite lookup_take_lt by lia. by rewrite lookup_drop.
Qed.

Lemma collect_regions_context_window_witness :
  exists r,
    collect_regions ONLY_PDE LOG_SINGLE 3 = [r]
    /\ start_line r = 17 /\ end_line r = 23
    /\ length (snippet_raw r) = 7%nat
    /\ snippet_raw r !! 3%nat = Some BAD_LINE.
Proof.
  assert (H : exists e, parse_errors LOG_SINGLE = [e])
    by (vm_compute; eexists; reflexivity).
  destruct H as [e He].
  assert (Hline : line e = 20).
  { assert (H : map line (parse_errors LOG_SINGLE) = [20])
      by (vm_compute; reflexivity).
    rewrite He in H. by injection H. }
  assert (Hfile : guess_file (context_chunk e) = lit "themes/pde.tex").
  { assert (H : map (fun e => guess_file (context_chunk e))
                    (parse_errors LOG_SINGLE) = [lit "themes/pde.tex"])
      by (vm_compute; reflexivity).
    rewrite He in H. by injection H. }
  destruct (collect_regions_context_window ONLY_PDE LOG_SINGLE 3)
    as (_ & _ & Hone); [lia|].
  destruct (Hone e PDE_TEX eq_refl He Hline)
    as (r & Hr & _ & _ & Hs & Hend & Hlen & Hbad).
  - rewrite Hfile. vm_compute. reflexivity.
  - vm_compute. lia.
  - exists r. repeat split; done.
Defined.

(** *** The file of an error *)

(** C7, as the code has it.  For every detected error the file is
    resolved from a window of the log that runs from 20 lines before the
    error line up to and including the [l.<N>] line after it.  When no
    file-open head [(./themes/] or [(./exams/] starts anywhere in the
    window, the file is [main.tex].  When the window ends with a marker
    [(./themes/NAME.tex] or [(./exams/NAME.tex] that no further [.tex]
    follows, and the files opened before it in the window are closed
    there, the file is that last marker's path.  The region built for the
    error carries this file. *)
Theorem guess_file_resolves_from_window (log_text : str) (e : latex_error) :
  e ∈ parse_errors log_text ->
  exists i j,
    error_found (splitlines log_text) i j e
    /\ let window :=
         join NL (slice (splitlines log_text)
                    (Z.max 0 (Z.of_nat i - 20)) (Z.of_nat j + 1)) in
       context_chunk e = window
       /\ (no_opener window = true ->
           guess_file (context_chunk e) = lit "main.tex")
       /\ (forall pre dir name post,
             window = pre ++ lit "(./" ++ dir ++ lit "/" ++ name
                      ++ lit ".tex" ++ post ->
             dir = lit "themes" \/ dir = lit "exams" ->
             name <> [] ->
             forallb not_rparen name = true ->
             closed pre = true ->
             contains TEX post = false ->
             guess_file (context_chunk e)
             = dir ++ lit "/" ++ name ++ lit ".tex")
       /\ (forall fs radius r,
             region_for fs radius e r ->
             file r = guess_file (context_chunk e)).
Proof.
  intros (i & j & Hfound)%parse_errors_found. exists i, j.
  split; [done|]. destruct Hfound as (_ & _ & _ & _ & Hchunk).
  cbv zeta. split; [done|]. rewrite Hchunk. split; [|split].
  - apply guess_file_no_opener.
  - intros pre dir name post -> Hdir Hne Hname Hpre Hpost.
    by apply guess_file_last_marker.
  - intros fs radius r (text & _ & ->). simpl. by rewrite Hchunk.
Qed.

Lemma guess_file_resolves_from_window_witness :
  exists e1 e2,
    parse_errors LOG_TWO_FILES = [e1; e2]
    /\ guess_file (context_chunk e2) = lit "themes/complex_analysis.tex".
Proof.
  assert (H : exists e1 e2, parse_errors LOG_TWO_FILES = [e1; e2])
    by (vm_compute; eexists _, _; reflexivity).
  destruct H as (e1 & e2 & He).
  exists e1, e2. split; [exact He|].
  assert (Hchunk : context_chunk e2
                   = TWO_FILES_PRE ++ lit "(./" ++ lit "themes" ++ lit "/"
                     ++ lit "complex_analysis" ++ lit ".tex"
                     ++ TWO_FILES_POST).
  { assert (H : map context_chunk (parse_errors LOG_TWO_FILES) !! 1%nat
                = Some (TWO_FILES_PRE ++ lit "(./" ++ lit "themes" ++ lit "/"
                        ++ lit "complex_analysis" ++ lit ".tex"
                        ++ TWO_FILES_POST))
      by (vm_compute; reflexivity).
    rewrite He in H. by injection H. }
  destruct (guess_file_resolves_from_window LOG_TWO_FILES e2)
    as (i & j & _ & Hwin & _ & Hlast & _).
  - rewrite He. apply list_elem_of_further, list_elem_of_here.
  - apply (Hlast TWO_FILES_PRE (lit "themes") (lit "complex_analysis")
             TWO_FILES_POST).
    + by rewrite <- Hwin.
    + by left.
    + discriminate.
    + vm_compute; reflexivity.
    + vm_compute; reflexivity.
    + vm_compute; reflexivity.
Defined.

(** C7 as stated fails.  The only file-open marker in the lines that
    precede the error line names [themes/a.tex]; the file is nevertheless
    resolved to [themes/b.tex], from the text quoted on the [l.5] line,
    which follows the error line. *)
Lemma marker_after_error_line_wins :
  let lines := splitlines LOG_MARKER_IN_SOURCE in
  let preceding := slice lines (Z.max 0 (1 - 20)) 1 in
  lines !! 1%nat = Some (lit "! Undefined control sequence.")
  /\ preceding = [lit "(./themes/a.tex)"]
  /\ guess_file (join NL preceding) = lit "themes/a.tex"
  /\ map (fun e => guess_file (context_chunk e))
         (parse_errors LOG_MARKER_IN_SOURCE)
     = [lit "themes/b.tex"].
Proof.
  vm_compute. repeat split.
Qed.

(** Two markers with no closing parenthesis between them come out as one
    match, from the first head to the last [.tex]: the file of the error
    is then neither of the two. *)
Lemma nested_markers_are_merged :
  map (fun e => guess_file (context_chunk e)) (parse_errors LOG_NESTED)
  = [lit "themes/a.tex (./themes/b.tex"].
Proof.
  vm_compute. reflexivity.
Qed.

End Regions.
